(** * Feature hashing and hierarchical matching of the tutorial notebooks

    A shallow embedding of the code of the notebooks that carries an
    algorithm of its own:

    - [SimpleRanker.rank]   (object-detection search notebook): chunk matches
      are grouped by parent, aggregated with [min] and sorted;
    - [LMDBStorage.index] / [LMDBStorage.search] (same notebook): parent
      documents are stored under their id and copied back into the matches;
    - [TagsHasher._any_hash] / [TagsHasher.encode] (table-filter notebook):
      feature hashing of the tags of a document;
    - [Notebook.h] (table-filter notebook): the hash the notebook introduces
      feature hashing with.

    Python integers are [Z]; Python and numpy floats are binary64 values
    ([PrimFloat.float]); a raised exception is an explicit [Raise]. *)

From Stdlib Require Import ZArith Floats Lia Ascii.
From Stdlib Require Uint63.
From stdpp Require Import base option list gmap strings sorting.

Set Warnings "-inexact-float,-register-all".
Local Open Scope Z_scope.

(** ** The fragment of Python the executors rely on *)

Module Py.

Inductive exn : Set :=
| ValueError | TypeError | OverflowError | ZeroDivisionError
| IndexError | KeyError.

(** The outcome of evaluating an expression or running a block. *)
Inductive result (A : Type) : Type :=
| Ok (a : A)
| Raise (e : exn).
Global Arguments Ok {A} a.
Global Arguments Raise {A} e.

Global Instance result_ret : MRet result := @Ok.
Global Instance result_bind : MBind result := λ A B f r,
  match r with Ok a => f a | Raise e => Raise e end.

Global Instance result_fmap : FMap result := λ A B f r,
  match r with Ok a => Ok (f a) | Raise e => Raise e end.

Definition is_Ok {A} (r : result A) : Prop := ∃ a, r = Ok a.

(** [for x in l: acc = body(acc, x)], stopping at the first exception. *)
Fixpoint for_each {A S} (body : S → A → result S) (l : list A) (s : S)
  : result S :=
  match l with
  | [] => Ok s
  | x :: l' => s' ← body s x; for_each body l' s'
  end.

(** [[f(x) for x in l]] *)
Fixpoint map_each {A B} (f : A → result B) (l : list A) : result (list B) :=
  match l with
  | [] => Ok []
  | x :: l' => y ← f x; ys ← map_each f l'; Ok (y :: ys)
  end.

(** [min(xs)] keeps the first smallest item and raises on an empty
    sequence. *)
Definition min (xs : list float) : result float :=
  match xs with
  | [] => Raise ValueError
  | x :: xs' =>
      Ok (fold_left (λ best y, if (y <? best)%float then y else best) xs' x)
  end.

(** [sorted(l, key=key)]: the keys are computed first, then the items are
    sorted stably on them with [<] only.  [insert_key] places an item
    behind every earlier item that it is not smaller than. *)
Fixpoint insert_key {A} (kx : float * A) (l : list (float * A))
  : list (float * A) :=
  match l with
  | [] => [kx]
  | ky :: l' =>
      if (kx.1 <? ky.1)%float then kx :: ky :: l'
      else ky :: insert_key kx l'
  end.

Definition sort_keyed {A} (l : list (float * A)) : list (float * A) :=
  fold_left (λ acc kx, insert_key kx acc) l [].

Definition sorted {A} (key : A → result float) (l : list A)
  : result (list A) :=
  keys ← map_each key l;
  Ok ((sort_keyed (zip keys l)).*2).

(** An insertion-ordered [dict] whose values are lists, used as
    [defaultdict(list)]: [d[k].append(x)]. *)
Fixpoint dd_append {V} (d : list (string * list V)) (k : string) (x : V)
  : list (string * list V) :=
  match d with
  | [] => [(k, [x])]
  | (k', xs) :: d' =>
      if decide (k' = k) then (k', xs ++ [x]) :: d'
      else (k', xs) :: dd_append d' k x
  end.

(** [for x in l: body(x)] where the body updates [x] in place: when an
    iteration raises, the items before it keep their update and the items
    after it are left as they were. *)
Fixpoint update_each {A} (body : A → A * result ()) (l : list A)
  : list A * result () :=
  match l with
  | [] => ([], Ok ())
  | x :: l' =>
      match body x with
      | (x', Ok _) =>
          let '(l'', r) := update_each body l' in (x' :: l'', r)
      | (x', Raise e) => (x' :: l', Raise e)
      end
  end.

(** *** Values and numbers *)

(** The values a tag can hold. *)
Inductive value : Type :=
| VNone
| VBool (b : bool)
| VInt (z : Z)
| VFloat (f : float)
| VStr (s : string)
| VList (l : list value)
| VTuple (l : list value)
| VDict (d : list (string * value)).

(** A number as arithmetic sees it: a Python [int] or a binary64 float. *)
Inductive number : Type :=
| Int (z : Z)
| Float (f : float).

(** Conversion of an integer to the nearest float (ties to even). *)
Definition float_of_Z (z : Z) : float :=
  SF2Prim (binary_normalize prec emax z 0 false).

(** What the string methods and parsers of the interpreter compute.  They are
    kept abstract; [None] stands for the [ValueError] of a parser that rejects
    its argument.  [md5 s] is
    [int(hashlib.md5(s.encode('utf-8')).hexdigest(), base=16)]. *)
Class Builtins : Type := {
  str_to_int : string → option Z;
  str_to_float : string → option float;
  str_strip : string → string;
  str_lower : string → string;
  repr : value → string;
  json_dumps : value → string;
  md5 : string → N;
}.

(** [int(v)] *)
Definition py_int `{Builtins} (v : value) : result Z :=
  match v with
  | VInt z => Ok z
  | VBool b => Ok (if b then 1 else 0)
  | VFloat f =>
      match Prim2SF f with
      | S754_nan => Raise ValueError
      | S754_infinity _ => Raise OverflowError
      | S754_zero _ => Ok 0
      | S754_finite s m e => Ok (cond_Zopp s (Z.shiftl (Z.pos m) e))
      end
  | VStr s =>
      match str_to_int s with Some z => Ok z | None => Raise ValueError end
  | VNone | VList _ | VTuple _ | VDict _ => Raise TypeError
  end.

(** [float(v)] *)
Definition py_float `{Builtins} (v : value) : result float :=
  match v with
  | VFloat f => Ok f
  | VBool b => Ok (if b then 1 else 0)%float
  | VInt z =>
      if is_infinity (float_of_Z z) then Raise OverflowError
      else Ok (float_of_Z z)
  | VStr s =>
      match str_to_float s with Some f => Ok f | None => Raise ValueError end
  | VNone | VList _ | VTuple _ | VDict _ => Raise TypeError
  end.

(** [str(v)] *)
Definition py_str `{Builtins} (v : value) : string :=
  match v with
  | VStr s => s
  | _ => repr v
  end.

(** [bool(v)], so that [not v] is [negb (truth v)]. *)
Definition truth (v : value) : bool :=
  match v with
  | VNone => false
  | VBool b => b
  | VInt z => negb (z =? 0)
  | VFloat f => negb (f =? 0)%float
  | VStr s => negb (String.eqb s "")
  | VList l | VTuple l => match l with [] => false | _ => true end
  | VDict d => match d with [] => false | _ => true end
  end.

(** C [fmod]: the exact remainder of [x / y], with the sign of [x]. *)
Definition fmod (x y : float) : float :=
  match Prim2SF x, Prim2SF y with
  | S754_nan, _ | _, S754_nan | S754_infinity _, _ | _, S754_zero _ => nan
  | S754_zero _, _ => x
  | S754_finite _ _ _, S754_infinity _ => x
  | S754_finite sx mx ex, S754_finite _ my ey =>
      let e := Z.min ex ey in
      let r := (Z.pos mx * 2 ^ (ex - e)) mod (Z.pos my * 2 ^ (ey - e)) in
      if r =? 0 then (if sx then PrimFloat.neg_zero else PrimFloat.zero)
      else SF2Prim (binary_normalize prec emax (cond_Zopp sx r) e false)
  end.

(** [vx % wx] on floats. *)
Definition float_rem (vx wx : float) : result float :=
  if (wx =? 0)%float then Raise ZeroDivisionError
  else
    let r := fmod vx wx in
    if negb (r =? 0)%float then
      (* the remainder takes the sign of the denominator *)
      if xorb (wx <? 0)%float (r <? 0)%float then Ok (r + wx)%float
      else Ok r
    else Ok (if (wx <? 0)%float then PrimFloat.neg_zero else PrimFloat.zero).

(** [x % w] for an [int] [w]. *)
Definition py_mod `{Builtins} (x : number) (w : Z) : result number :=
  match x with
  | Int z => if w =? 0 then Raise ZeroDivisionError else Ok (Int (z mod w))
  | Float f => wx ← py_float (VInt w); r ← float_rem f wx; Ok (Float r)
  end.

(** The float an arithmetic operand is converted to. *)
Definition to_float (x : number) : float :=
  match x with
  | Int z => float_of_Z z
  | Float f => f
  end.

(** [x * y] *)
Definition py_mul (x y : number) : number :=
  match x, y with
  | Int a, Int b => Int (a * b)
  | _, _ => Float (to_float x * to_float y)
  end.

(** [np.sign(x)] *)
Definition np_sign (x : number) : number :=
  match x with
  | Int z => Int (Z.sgn z)
  | Float f =>
      Float (if (0 <? f)%float then 1
             else if (f <? 0)%float then (-1)
             else if (f =? 0)%float then 0
             else f)%float
  end.

(** [np.zeros(n)] *)
Definition np_zeros (n : Z) : result (list float) :=
  if n <? 0 then Raise ValueError else Ok (replicate (Z.to_nat n) 0%float).

(** [table[col] += val] on a float array: an index must be an integer, and a
    negative one counts from the end. *)
Definition iadd_at (table : list float) (col val : number)
  : result (list float) :=
  match col with
  | Float _ => Raise IndexError
  | Int c =>
      let n := Z.of_nat (length table) in
      if bool_decide (- n ≤ c < n) then
        Ok (alter (λ x, x + to_float val)%float (Z.to_nat (c mod n)) table)
      else Raise IndexError
  end.

End Py.

Import Py.

(** ** MD5 (RFC 1321) *)

Module MD5.

Definition K : list Z :=
  [0xd76aa478; 0xe8c7b756; 0x242070db; 0xc1bdceee;
   0xf57c0faf; 0x4787c62a; 0xa8304613; 0xfd469501;
   0x698098d8; 0x8b44f7af; 0xffff5bb1; 0x895cd7be;
   0x6b901122; 0xfd987193; 0xa679438e; 0x49b40821;
   0xf61e2562; 0xc040b340; 0x265e5a51; 0xe9b6c7aa;
   0xd62f105d; 0x02441453; 0xd8a1e681; 0xe7d3fbc8;
   0x21e1cde6; 0xc33707d6; 0xf4d50d87; 0x455a14ed;
   0xa9e3e905; 0xfcefa3f8; 0x676f02d9; 0x8d2a4c8a;
   0xfffa3942; 0x8771f681; 0x6d9d6122; 0xfde5380c;
   0xa4beea44; 0x4bdecfa9; 0xf6bb4b60; 0xbebfbc70;
   0x289b7ec6; 0xeaa127fa; 0xd4ef3085; 0x04881d05;
   0xd9d4d039; 0xe6db99e5; 0x1fa27cf8; 0xc4ac5665;
   0xf4292244; 0x432aff97; 0xab9423a7; 0xfc93a039;
   0x655b59c3; 0x8f0ccc92; 0xffeff47d; 0x85845dd1;
   0x6fa87e4f; 0xfe2ce6e0; 0xa3014314; 0x4e0811a1;
   0xf7537e82; 0xbd3af235; 0x2ad7d2bb; 0xeb86d391].

Definition shifts : list Z :=
  [7; 12; 17; 22; 7; 12; 17; 22; 7; 12; 17; 22; 7; 12; 17; 22;
   5; 9; 14; 20; 5; 9; 14; 20; 5; 9; 14; 20; 5; 9; 14; 20;
   4; 11; 16; 23; 4; 11; 16; 23; 4; 11; 16; 23; 4; 11; 16; 23;
   6; 10; 15; 21; 6; 10; 15; 21; 6; 10; 15; 21; 6; 10; 15; 21].

Definition w32 (x : Z) : Z := x mod 2 ^ 32.

Definition rotl (x c : Z) : Z :=
  w32 (Z.lor (Z.shiftl x c) (Z.shiftr x (32 - c))).

(** Little-endian value of a list of bytes. *)
Fixpoint le (bs : list Z) : Z :=
  match bs with
  | [] => 0
  | b :: bs' => b + 256 * le bs'
  end.

Fixpoint be_bytes (n : nat) (x : Z) : list Z :=
  match n with
  | O => []
  | S n' => be_bytes n' (x / 256) ++ [x mod 256]
  end.

Fixpoint chunks (n : nat) (fuel : nat) (bs : list Z) : list (list Z) :=
  match fuel, bs with
  | S fuel', _ :: _ => take n bs :: chunks n fuel' (drop n bs)
  | _, _ => []
  end.

Definition pad (msg : list Z) : list Z :=
  let len := Z.of_nat (length msg) in
  let zeros := Z.to_nat ((55 - len) mod 64) in
  msg ++ [0x80] ++ replicate zeros 0
      ++ rev (be_bytes 8 ((8 * len) mod 2 ^ 64)).

Definition round (M : list Z) (st : Z * Z * Z * Z) (i : Z) : Z * Z * Z * Z :=
  let '(A, B, C, D) := st in
  let '(F, g) :=
    if i <? 16 then (Z.lor (Z.land B C) (Z.land (w32 (Z.lnot B)) D), i)
    else if i <? 32 then
      (Z.lor (Z.land D B) (Z.land (w32 (Z.lnot D)) C), (5 * i + 1) mod 16)
    else if i <? 48 then (Z.lxor B (Z.lxor C D), (3 * i + 5) mod 16)
    else (Z.lxor C (Z.lor B (w32 (Z.lnot D))), (7 * i) mod 16) in
  let F := w32 (F + A + default 0 (K !! Z.to_nat i)
                + default 0 (M !! Z.to_nat g)) in
  (D, w32 (B + rotl F (default 0 (shifts !! Z.to_nat i))), B, C).

Definition block (st : Z * Z * Z * Z) (bs : list Z) : Z * Z * Z * Z :=
  let M := le <$> chunks 4 16 bs in
  let '(a0, b0, c0, d0) := st in
  let '(A, B, C, D) := fold_left (round M) (Z.of_nat <$> seq 0 64) st in
  (w32 (a0 + A), w32 (b0 + B), w32 (c0 + C), w32 (d0 + D)).

Definition digest (msg : list Z) : list Z :=
  let p := pad msg in
  let '(a, b, c, d) :=
    fold_left block (chunks 64 (length p) p)
      (0x67452301, 0xefcdab89, 0x98badcfe, 0x10325476) in
  rev (be_bytes 4 a) ++ rev (be_bytes 4 b) ++ rev (be_bytes 4 c)
      ++ rev (be_bytes 4 d).

Definition bytes_of (s : string) : list Z :=
  (λ a, Z.of_nat (Ascii.nat_of_ascii a)) <$> String.list_ascii_of_string s.

(** The digest of the bytes of [s], read as a hexadecimal numeral. *)
Definition hexdigest_int (s : string) : N :=
  Z.to_N (le (rev (digest (bytes_of s)))).

End MD5.

(** ** The builtins on ASCII strings *)

Module CPython.

Definition code (a : Ascii.ascii) : Z := Z.of_nat (Ascii.nat_of_ascii a).

Definition is_space (a : Ascii.ascii) : bool :=
  let c := code a in
  ((9 <=? c) && (c <=? 13)) || ((28 <=? c) && (c <=? 32)).

Definition strip (s : string) : string :=
  let drop := fix drop (l : list Ascii.ascii) : list Ascii.ascii :=
    match l with
    | a :: l' => if is_space a then drop l' else l
    | [] => []
    end in
  String.string_of_list_ascii
    (rev (drop (rev (drop (String.list_ascii_of_string s))))).

Definition lower (s : string) : string :=
  String.string_of_list_ascii
    ((λ a, let c := code a in
           if (65 <=? c) && (c <=? 90)
           then Ascii.ascii_of_nat (Z.to_nat (c + 32)) else a)
       <$> String.list_ascii_of_string s).

Definition digit (a : Ascii.ascii) : option Z :=
  let c := code a in
  if (48 <=? c) && (c <=? 57) then Some (c - 48) else None.

(** A run of digits in which single underscores may separate digits: its
    value, the number of digits, and what follows it. *)
Fixpoint digitpart (acc n : Z) (prev : bool) (l : list Ascii.ascii)
  : option (Z * Z * list Ascii.ascii) :=
  match l with
  | a :: l' =>
      match digit a with
      | Some d => digitpart (10 * acc + d) (n + 1) true l'
      | None =>
          if prev then
            if bool_decide (a = "_"%char) then
              match l' with
              | b :: _ =>
                  match digit b with
                  | Some _ => digitpart acc n false l'
                  | None => None
                  end
              | [] => None
              end
            else Some (acc, n, l)
          else None
      end
  | [] => if prev then Some (acc, n, []) else None
  end.

Definition signed (l : list Ascii.ascii) : bool * list Ascii.ascii :=
  match l with
  | a :: l' =>
      if bool_decide (a = "-"%char) then (true, l')
      else if bool_decide (a = "+"%char) then (false, l')
      else (false, l)
  | [] => (false, [])
  end.

(** [int(s)] for a string of ASCII characters. *)
Definition str_to_int (s : string) : option Z :=
  let '(neg, l) := signed (String.list_ascii_of_string (strip s)) in
  match digitpart 0 0 false l with
  | Some (v, _, []) => Some (if neg then - v else v)
  | _ => None
  end.

(** The float nearest to [n * 10 ^ e], for [0 ≤ n]. *)
Definition decimal (neg : bool) (n e : Z) : float :=
  SF2Prim
    (if n =? 0 then S754_zero neg
     else if 0 <=? e then
       binary_normalize prec emax (cond_Zopp neg (n * 10 ^ e)) 0 false
     else
       let '(mz, ez, lz) := SFdiv_core_binary prec emax n 0 (10 ^ (- e)) 0 in
       binary_round_aux prec emax neg mz ez lz).

Definition exponent (l : list Ascii.ascii) : option Z :=
  match l with
  | [] => Some 0
  | a :: l' =>
      if bool_decide (lower (String a "") = "e") then
        let '(neg, l'') := signed l' in
        match digitpart 0 0 false l'' with
        | Some (v, _, []) => Some (if neg then - v else v)
        | _ => None
        end
      else None
  end.

(** [float(s)] for a string of ASCII characters. *)
Definition str_to_float (s : string) : option float :=
  let '(neg, l) := signed (String.list_ascii_of_string (strip s)) in
  let word := lower (String.string_of_list_ascii l) in
  if bool_decide (word ∈ ["inf"; "infinity"]) then
    Some (if neg then neg_infinity else infinity)
  else if bool_decide (word = "nan") then Some nan
  else
    let '(ip, ni, l1) := default (0, 0, l) (digitpart 0 0 false l) in
    let '(fp, nf, l2) :=
      match l1 with
      | a :: l' =>
          if bool_decide (a = "."%char)
          then default (0, 0, l') (digitpart 0 0 false l')
          else (0, 0, l1)
      | [] => (0, 0, [])
      end in
    if ni + nf =? 0 then None
    else e ← exponent l2; Some (decimal neg (ip * 10 ^ nf + fp) (e - nf)).

(** The instance used to run the executors on concrete inputs.  [repr] and
    [json_dumps] are not implemented: [_any_hash] never calls them (see
    [any_hash_digest_only_str]). *)
Global Instance builtins : Builtins := {|
  Py.str_to_int := str_to_int;
  Py.str_to_float := str_to_float;
  Py.str_strip := strip;
  Py.str_lower := lower;
  Py.repr := λ _, "";
  Py.json_dumps := λ _, "";
  Py.md5 := MD5.hexdigest_int;
|}.

End CPython.

(** ** Documents *)

(** The fields of a docarray [Document] that the executors read or write.
    Unset string fields read as the empty string and an unset [scores] as the
    empty mapping. *)
Module Document.

Record t : Type := mk {
  id : string;
  parent_id : string;
  uri : string;
  text : string;
  scores : gmap string float;
}.

(** [Document(id=i, scores=s)] *)
Definition new (i : string) (s : gmap string float) : t :=
  mk i "" "" "" s.

(** [d.id = i] *)
Definition set_id (d : t) (i : string) : t :=
  mk i (parent_id d) (uri d) (text d) (scores d).

(** [d.scores[metric].value].  The matcher sets the metric on every match it
    produces; reading a metric that is not there is a [KeyError] here. *)
Definition score (metric : string) (d : t) : result float :=
  match scores d !! metric with
  | Some x => Ok x
  | None => Raise KeyError
  end.

End Document.

(** A query document with its match list ([doc.matches]). *)
Record QueryDoc : Type := mkQueryDoc {
  root : Document.t;
  matches : list Document.t;
}.

(** ** SimpleRanker *)

Module SimpleRanker.

Record t : Type := mk { metric : string }.

Definition __init__ : result t := Ok (mk "cosine").

(** [for m in doc.matches:
       parents_scores[m.parent_id].append(m.scores[self.metric].value)] *)
Definition collect (self : t) (ms : list Document.t)
  : result (list (string * list float)) :=
  for_each
    (λ parents_scores m,
       x ← Document.score (metric self) m;
       Ok (dd_append parents_scores (Document.parent_id m) x))
    ms [].

(** [for match_parent_id, scores in parents_scores.items(): ...] *)
Definition aggregate (self : t) (parents_scores : list (string * list float))
  : result (list Document.t) :=
  map_each
    (λ '(match_parent_id, scores),
       score ← Py.min scores;
       Ok (Document.new match_parent_id {[ metric self := score ]}))
    parents_scores.

(** The body of the loop over [docs]. *)
Definition rank_doc (self : t) (doc : QueryDoc) : result QueryDoc :=
  parents_scores ← collect self (matches doc);
  new_matches ← aggregate self parents_scores;
  ranked ← Py.sorted (Document.score (metric self)) new_matches;
  (* doc.matches.clear(); doc.matches.extend(...) *)
  Ok (mkQueryDoc (root doc) ([] ++ ranked)).

(** [rank(docs)]; [None] stands for [docs is None]. *)
Definition rank (self : t) (docs : option (list QueryDoc))
  : result (option (list QueryDoc)) :=
  match docs with
  | None => Ok None
  | Some ds => ds' ← map_each (rank_doc self) ds; Ok (Some ds')
  end.

End SimpleRanker.

(** ** LMDBStorage *)

Module LMDBStorage.

(** The database file: documents under their id.  [to_bytes] followed by
    [from_bytes] gives the document back, so the values are kept as
    documents. *)
Abbreviation db := (gmap string Document.t).

(** [Document.from_bytes(transaction.get(key))]: [get] answers [None] for a
    key that is not in the database, which [from_bytes] does not accept. *)
Definition from_bytes (v : option Document.t) : result Document.t :=
  match v with
  | Some d => Ok d
  | None => Raise TypeError
  end.

(** [index(docs)] *)
Definition index (transaction : db) (docs : option (list Document.t)) : db :=
  match docs with
  | None => transaction
  | Some ds => fold_left (λ tx d, <[Document.id d := d]> tx) ds transaction
  end.

Section search.

(** [self.copy_from(other)] of docarray, as the state it leaves [self] in. *)
Variable copy_from : Document.t → Document.t → Document.t.

(** The body of the loop over [doc.matches]. *)
Definition resolve (transaction : db) (match_doc : Document.t)
  : result Document.t :=
  let id := Document.id match_doc in
  serialized_doc ← from_bytes (transaction !! Document.id match_doc);
  let match_doc := copy_from match_doc serialized_doc in
  Ok (Document.set_id match_doc id).

Definition resolve_in_place (transaction : db) (match_doc : Document.t)
  : Document.t * result () :=
  match resolve transaction match_doc with
  | Ok match_doc' => (match_doc', Ok ())
  | Raise e => (match_doc, Raise e)
  end.

(** [search(docs)]: the documents as the call leaves them, and how it ends. *)
Definition search (transaction : db) (docs : option (list QueryDoc))
  : option (list QueryDoc) * result () :=
  match docs with
  | None => (None, Ok ())
  | Some ds =>
      let '(ds', r) :=
        update_each
          (λ doc,
             let '(ms, r) :=
               update_each (resolve_in_place transaction) (matches doc) in
             (mkQueryDoc (root doc) ms, r))
          ds in
      (Some ds', r)
  end.

End search.

(** docarray documents [copy_from] as overwriting [self] with a copy of the
    other document: every field is taken from [other]. *)
Definition copy_from_overwrite (self other : Document.t) : Document.t := other.

End LMDBStorage.

(** ** TagsHasher *)

(** A document of the table: its tags in iteration order, and the embedding
    once [encode] has set it. *)
Inductive embedding : Type :=
| Dense (table : list float)
| Csr (data : list number) (idxs : list (Z * number)) (shape : Z * Z).

Record TagDoc : Type := mkTagDoc {
  tags : list (string * value);
  doc_embedding : option embedding;
}.

Module TagsHasher.

Section hasher.
Context `{Builtins}.

(** [hash] is the digest read as an integer:
    [int(self.hash(s.encode('utf-8')).hexdigest(), base=16)]. *)
Record t : Type := mk {
  n_dim : Z;
  max_val : Z;
  hash : string → N;
  sparse : bool;
}.

(** [TagsHasher(n_dim, max_val, sparse)]; the defaults are 256, 65536 and
    [False]. *)
Definition __init__ (n_dim max_val : Z) (sparse : bool) : result t :=
  Ok (mk n_dim max_val md5 sparse).

Definition _any_hash (self : t) (v : value) : result number :=
  match py_int v with
  | Ok z => Ok (Int z)
  | Raise ValueError =>
      match py_float v with
      | Ok f => Ok (Float f)
      | Raise ValueError =>
          if negb (truth v) then Ok (Int 0)
          else
            match v with
            | VStr s =>
                let v := str_strip s in
                if bool_decide (str_lower v ∈ ["true"; "yes"]) then Ok (Int 1)
                else if bool_decide (str_lower v ∈ ["false"; "no"])
                then Ok (Int 0)
                else Ok (Int (Z.of_N (hash self v)))
            | VTuple _ | VDict _ | VList _ =>
                Ok (Int (Z.of_N (hash self (json_dumps v))))
            | _ => Ok (Int (Z.of_N (hash self (py_str v))))
            end
      | Raise e => Raise e
      end
  | Raise e => Raise e
  end.

(** The column and the signed value one tag adds to the table:
    [h = self._any_hash(k); sign_h = np.sign(h); col = h % self.n_dim;
     val = self._any_hash(v); sign_v = np.sign(val); val = val % self.max_val;
     val = sign_h * sign_v * val].
    The signs are -1, 0 or 1 and the reduced value is below [max_val], so
    the integer product is kept as an integer. *)
Definition contribution (self : t) (kv : string * value)
  : result (number * number) :=
  let '(k, v) := kv in
  h ← _any_hash self (VStr k);
  let sign_h := np_sign h in
  col ← py_mod h (n_dim self);
  val ← _any_hash self v;
  let sign_v := np_sign val in
  val ← py_mod val (max_val self);
  let val := py_mul (py_mul sign_h sign_v) val in
  Ok (col, val).

Record acc : Type := mkAcc {
  idxs : list (Z * number);
  data : list number;
  table : list float;
}.

(** The body of the loop over [doc.tags.items()]:
    [idxs.append((0, col)); data.append(val); table[col] += val]. *)
Definition add_tag (self : t) (a : acc) (kv : string * value) : result acc :=
  '(col, val) ← contribution self kv;
  let idxs := idxs a ++ [(0, col)] in
  let data := data a ++ [val] in
  table ← iadd_at (table a) col val;
  Ok (mkAcc idxs data table).

(** The body of the loop over [docs]; a document without tags is left as it
    is. *)
Definition encode_doc (self : t) (doc : TagDoc) : result TagDoc :=
  match tags doc with
  | [] => Ok doc
  | _ =>
      zeros ← np_zeros (n_dim self);
      a ← for_each (add_tag self) (tags doc) (mkAcc [] [] zeros);
      if sparse self then
        Ok (mkTagDoc (tags doc) (Some (Csr (data a) (idxs a) (1, n_dim self))))
      else Ok (mkTagDoc (tags doc) (Some (Dense (table a))))
  end.

Definition encode (self : t) (docs : list TagDoc) : result (list TagDoc) :=
  map_each (encode_doc self) docs.

End hasher.

End TagsHasher.

(** ** Vocabulary of the statements *)

(** A chunk-level match (chunk, parent, score) and a parent-level match
    (parent, score) under the metric ["cosine"]. *)
Definition chunk (i p : string) (x : float) : Document.t :=
  Document.mk i p "" "" {[ "cosine"%string := x ]}.

Definition parent (p : string) (x : float) : Document.t :=
  Document.new p {[ "cosine"%string := x ]}.

(** What the ranker reads of a match list: the parent and the score of each
    match, in order. *)
Definition chunk_scores (metric : string) (ms : list Document.t)
  : result (list (string * float)) :=
  map_each (λ m, x ← Document.score metric m; Ok (Document.parent_id m, x)) ms.

(** The groups of scores, by parent, in order of first occurrence. *)
Definition grouped (ps : list (string * float)) (d : list (string * list float))
  : list (string * list float) :=
  fold_left (λ d px, dd_append d px.1 px.2) ps d.

(** [x] is not above [y]: [y < x] does not hold. *)
Definition not_above (x y : float) : Prop := (y <? x)%float = false.

(** [x] is a least item of [xs]. *)
Definition least (x : float) (xs : list float) : Prop :=
  x ∈ xs ∧ Forall (not_above x) xs.

(** The scores of the chunks of parent [p], in order. *)
Definition scores_of (p : string) (ps : list (string * float)) : list float :=
  (filter (λ px, px.1 = p) ps).*2.

(** [d[k]] of a [defaultdict(list)]. *)
Fixpoint dd_get {V} (d : list (string * list V)) (k : string) : list V :=
  match d with
  | [] => []
  | (k', xs) :: d' => if decide (k' = k) then xs else dd_get d' k
  end.


(** A match [m] resolved against the database: it keeps its id and is
    otherwise what [copy_from] makes of it and the stored document. *)
Definition resolved (copy_from : Document.t → Document.t → Document.t)
    (tx : gmap string Document.t) (m m' : Document.t) : Prop :=
  ∃ d, tx !! Document.id m = Some d ∧
       m' = Document.set_id (copy_from m d) (Document.id m).

Definition resolved_doc (copy_from : Document.t → Document.t → Document.t)
    (tx : gmap string Document.t) (q q' : QueryDoc) : Prop :=
  root q' = root q ∧ Forall2 (resolved copy_from tx) (matches q) (matches q').

Definition present (tx : gmap string Document.t) (m : Document.t) : Prop :=
  is_Some (tx !! Document.id m).

(** The running example at the storage: parent B is in the database, once as
    it is indexed (no scores) and once carrying a score of its own; parent A
    is not. *)
Definition stored_parentB : Document.t :=
  Document.mk "parentB" "" "b.jpg" "" ∅.

Definition scored_parentB : Document.t :=
  Document.mk "parentB" "" "b.jpg" "" {[ "cosine"%string := 0.9%float ]}.

Definition query_B : QueryDoc :=
  mkQueryDoc (Document.new "q" ∅) [parent "parentB" 0.2].

Definition query_AB : QueryDoc :=
  mkQueryDoc (Document.new "q" ∅)
    [parent "parentA" 0.05; parent "parentB" 0.2].

(** A string that is not empty, that neither [int] nor [float] accepts and
    that is not one of the boolean words once stripped and lowered. *)
Definition plain `{Builtins} (s : string) : Prop :=
  str_to_int s = None ∧ str_to_float s = None ∧ s ≠ "" ∧
  bool_decide (str_lower (str_strip s) ∈ ["true"; "yes"]) = false ∧
  bool_decide (str_lower (str_strip s) ∈ ["false"; "no"]) = false.

(** The columns and values of the tags of a document, in iteration order. *)
Definition contributions `{Builtins} (self : TagsHasher.t)
    (A : list (string * value)) : result (list (number * number)) :=
  map_each (TagsHasher.contribution self) A.

Definition goes_to (j : nat) (cv : number * number) : bool :=
  match cv.1 with
  | Int c => c =? Z.of_nat j
  | Float _ => false
  end.

(** The contributions that go to column [j], in order, and their number. *)
Definition column (cs : list (number * number)) (j : nat) : list number :=
  snd <$> filter (λ cv, goes_to j cv = true) cs.

Definition column_count (cs : list (number * number)) (j : nat) : nat :=
  length (column cs j).

(** The float sum of a list of numbers, taken from left to right. *)
Definition float_sum (x0 : float) (vs : list number) : float :=
  fold_left (λ x v, x + to_float v)%float vs x0.

(** A contribution with an integer column and an integer value. *)
Definition integral (cv : number * number) : Prop :=
  ∃ c v, cv = (Int c, Int v).

Definition int_value (v : number) : Z :=
  match v with Int z => z | Float _ => 0 end.

(** The exact sum of the integer contributions to column [j]. *)
Definition column_total (cs : list (number * number)) (j : nat) : Z :=
  foldr Z.add 0 (int_value <$> column cs j).

(** The table after all the [table[col] += val]. *)
Definition add_all (cs : list (number * number)) (table : list float)
  : list float :=
  fold_left
    (λ t cv, match cv.1 with
             | Int c => alter (λ x, x + to_float cv.2)%float (Z.to_nat c) t
             | Float _ => t
             end)
    cs table.


(** Tags of the running examples: a row of the film table, and three
    columns with numeric titles that all fall into column 5 of the table. *)
Definition film : list (string * value) :=
  [("Subject"%string, VStr "Comedy"); ("Year"%string, VInt 1987)].

Definition decimals : list (string * value) :=
  [("5"%string, VStr "0.1"); ("261"%string, VStr "0.2");
   ("517"%string, VStr "0.3")].

(** The hasher of the notebook: [TagsHasher()]. *)
Definition th : TagsHasher.t := TagsHasher.mk 256 65536 md5 false.

(** ** The table-filter notebook outside the executor *)

Module Notebook.

(** The hash the notebook introduces feature hashing with:
    [h = lambda x: int(hashlib.md5(str(x).encode('utf-8')).hexdigest(),
                       base=16) % 256]. *)
Definition h `{Builtins} (x : value) : Z := Z.of_N (md5 (py_str x)) mod 256.

End Notebook.

(** ** Vocabulary of the further properties *)

(** A match that carries a score under the metric, and the score is a
    number: the order of scores is total on such matches. *)
Definition scored (metric : string) (m : Document.t) : Prop :=
  ∃ x, Document.scores m !! metric = Some x ∧ is_nan x = false.

(** Parent [p] is seen before parent [p']: some chunk of [p] comes before
    every chunk of [p'] in the list of the parents of the chunks. *)
Definition seen_before (p p' : string) (parents : list string) : Prop :=
  p ≠ p' ∧ ∃ l1 l2, parents = l1 ++ p :: l2 ∧ p' ∉ l1.

(** [a] is ranked before [b]: its score is lower, or neither score is lower
    and the parent of [a] is seen first among the chunks. *)
Definition ranked_before (metric : string) (parents : list string)
    (a b : Document.t) : Prop :=
  ∃ x y, Document.score metric a = Ok x ∧ Document.score metric b = Ok y ∧
    ((x <? y)%float = true ∨
     ((y <? x)%float = false ∧
      seen_before (Document.id a) (Document.id b) parents)).

(** The same on keyed items, [S] being the order the items come in. *)
Definition keyed_before {A} (S : relation (float * A)) (a b : float * A)
  : Prop :=
  (a.1 <? b.1)%float = true ∨ ((b.1 <? a.1)%float = false ∧ S a b).

(** A key LMDB takes: between 1 and 511 bytes. *)
Definition valid_key (k : string) : Prop :=
  (0 < String.length k ≤ 511)%nat.

(** Two values that [int] does not tell apart. *)
Definition same_int `{Builtins} (v v' : value) : Prop :=
  v = v' ∨ ∃ z, py_int v = Ok z ∧ py_int v' = Ok z.

(** [lstrip] on the characters of a string: what [CPython.strip] does at
    either end. *)
Fixpoint lstrip (l : list Ascii.ascii) : list Ascii.ascii :=
  match l with
  | a :: l' => if CPython.is_space a then lstrip l' else l
  | [] => []
  end.

(** * Properties *)

(** ** The builtins on test vectors *)

(** The test suite of RFC 1321, and a message of more than one block. *)
Lemma md5_test_suite :
  MD5.hexdigest_int "" = 0xd41d8cd98f00b204e9800998ecf8427e%N ∧
  MD5.hexdigest_int "a" = 0x0cc175b9c0f1b6a831c399e269772661%N ∧
  MD5.hexdigest_int "abc" = 0x900150983cd24fb0d6963f7d28e17f72%N ∧
  MD5.hexdigest_int "message digest" = 0xf96b697d7cb7938d525a2f31aaf161d0%N ∧
  MD5.hexdigest_int "abcdefghijklmnopqrstuvwxyz"
  = 0xc3fcd3d76192e4007dfb496cca67e13b%N ∧
  MD5.hexdigest_int
    "ABCDEFGHIJKLMNOPQRSTUVWXYZabcdefghijklmnopqrstuvwxyz0123456789"
  = 0xd174ab98d277d9f5a5611c2c9f419d9f%N ∧
  MD5.hexdigest_int
    "12345678901234567890123456789012345678901234567890123456789012345678901234567890"
  = 0x57edf4a22be3c955ac49da2e2107b67a%N.
Proof. split_and!; vm_compute; reflexivity. Qed.

Lemma str_to_int_examples :
  CPython.str_to_int " 1_000 " = Some 1000 ∧
  CPython.str_to_int "-42" = Some (-42) ∧
  CPython.str_to_int "1987" = Some 1987 ∧
  CPython.str_to_int "1__0" = None ∧
  CPython.str_to_int "0.1" = None ∧
  CPython.str_to_int "" = None ∧
  CPython.str_to_int "Comedy" = None.
Proof. split_and!; reflexivity. Qed.

Lemma str_to_float_examples :
  CPython.str_to_float "0.1" = Some 0.1%float ∧
  CPython.str_to_float "0.3" = Some 0.3%float ∧
  CPython.str_to_float " -1e-20" = Some (-1e-20)%float ∧
  CPython.str_to_float "1.7976931348623157e308"
  = Some 1.7976931348623157e308%float ∧
  CPython.str_to_float "5e-324" = Some 5e-324%float ∧
  CPython.str_to_float ".5" = Some 0.5%float ∧
  CPython.str_to_float "5." = Some 5%float ∧
  CPython.str_to_float "Infinity" = Some infinity ∧
  CPython.str_to_float "1e" = None ∧
  CPython.str_to_float "." = None ∧
  CPython.str_to_float "Comedy" = None.
Proof. split_and!; vm_compute; reflexivity. Qed.

(** ** The result monad and the loops *)

Lemma bind_Ok {A B} (f : A → result B) (a : A) : Ok a ≫= f = f a.
Proof. reflexivity. Qed.

Lemma bind_Raise {A B} (f : A → result B) (e : exn) : Raise e ≫= f = Raise e.
Proof. reflexivity. Qed.

Lemma map_each_Ok {A B} (f : A → result B) (l : list A) :
  Forall (λ x, is_Ok (f x)) l →
  ∃ ys, map_each f l = Ok ys ∧ Forall2 (λ x y, f x = Ok y) l ys.
Proof.
  induction 1 as [|x l [y Hy] _ (ys & Hys & IH)]; cbn.
  - exists []. split; [done|constructor].
  - exists (y :: ys). rewrite Hy, bind_Ok, Hys, bind_Ok.
    split; [done|by constructor].
Qed.

Lemma map_each_inv {A B} (f : A → result B) (l : list A) (ys : list B) :
  map_each f l = Ok ys → Forall2 (λ x y, f x = Ok y) l ys.
Proof.
  revert ys. induction l as [|x l IH]; intros ys; cbn.
  - intros [= <-]. constructor.
  - destruct (f x) as [y|e] eqn:Hy; [|done]. rewrite bind_Ok.
    destruct (map_each f l) as [ys'|e] eqn:Hys; [|done].
    rewrite bind_Ok. intros [= <-]. constructor; [done|by apply IH].
Qed.

Lemma update_each_Ok {A} (body : A → A * result ()) (R : A → A → Prop)
    (l : list A) :
  Forall (λ x, ∃ x', body x = (x', Ok ()) ∧ R x x') l →
  ∃ l', update_each body l = (l', Ok ()) ∧ Forall2 R l l'.
Proof.
  induction 1 as [|x l (x' & Hx & HR) _ (l' & Hl & IH)]; cbn.
  - exists []. split; [done|constructor].
  - exists (x' :: l'). rewrite Hx, Hl. split; [done|by constructor].
Qed.

Lemma update_each_stop {A} (body : A → A * result ()) (R : A → A → Prop)
    (l1 l2 : list A) (x x' : A) (e : exn) :
  Forall (λ x, ∃ x', body x = (x', Ok ()) ∧ R x x') l1 →
  body x = (x', Raise e) →
  ∃ l1', update_each body (l1 ++ x :: l2) = (l1' ++ x' :: l2, Raise e) ∧
         Forall2 R l1 l1'.
Proof.
  intros Hl1 Hx.
  induction Hl1 as [|y l1 (y' & Hy & HR) _ (l1' & Hl & IH)]; cbn.
  - exists []. rewrite Hx. split; [done|constructor].
  - exists (y' :: l1'). rewrite Hy, Hl. split; [done|by constructor].
Qed.

(** ** The order of binary64 values *)

Ltac cases_compare :=
  repeat match goal with
    | H : context [(?a ?= ?b)%Z] |- _ => destruct (Z.compare_spec a b)
    | H : context [Pos.compare_cont Eq ?a ?b] |- _ =>
        change (Pos.compare_cont Eq a b) with (a ?= b)%positive in H;
        destruct (Pos.compare_spec a b)
    | |- context [(?a ?= ?b)%Z] => destruct (Z.compare_spec a b)
    | |- context [Pos.compare_cont Eq ?a ?b] =>
        change (Pos.compare_cont Eq a b) with (a ?= b)%positive;
        destruct (Pos.compare_spec a b)
    end.

Lemma SFltb_irrefl (x : spec_float) : SFltb x x = false.
Proof.
  unfold SFltb, SFcompare. destruct x as [[]|[]| |[] m e]; try done;
    rewrite Z.compare_refl;
    change (Pos.compare_cont Eq m m) with (m ?= m)%positive;
    by rewrite Pos.compare_refl.
Qed.

Lemma SFltb_trans (x y z : spec_float) :
  SFltb x y = true → SFltb y z = true → SFltb x z = true.
Proof.
  unfold SFltb, SFcompare.
  destruct x as [sx|sx| |sx mx ex], y as [sy|sy| |sy my ey],
           z as [sz|sz| |sz mz ez]; try done;
    destruct sx; try done; destruct sy; try done; destruct sz; try done;
    intros Hxy Hyz; cases_compare; subst; cbn in *; try done; try lia.
Qed.

Lemma ltb_irrefl (x : float) : (x <? x)%float = false.
Proof. rewrite ltb_spec. apply SFltb_irrefl. Qed.

Lemma ltb_trans (x y z : float) :
  (x <? y)%float = true → (y <? z)%float = true → (x <? z)%float = true.
Proof. rewrite !ltb_spec. apply SFltb_trans. Qed.

Lemma not_above_below (x y z : float) :
  (x <? y)%float = true → not_above y z → not_above x z.
Proof.
  unfold not_above. intros Hxy Hyz. destruct (z <? x)%float eqn:Hzx; [|done].
  by rewrite (ltb_trans z x y) in Hyz.
Qed.

Lemma below_not_above (x y : float) : (x <? y)%float = true → not_above x y.
Proof.
  unfold not_above. intros Hxy. destruct (y <? x)%float eqn:Hyx; [|done].
  by rewrite <- (ltb_irrefl x), (ltb_trans x y x).
Qed.

Lemma min_least (xs : list float) (x : float) : Py.min xs = Ok x → least x xs.
Proof.
  destruct xs as [|x0 xs]; [done|]. cbn. intros [= <-].
  assert (Hgen : ∀ best seen, least best seen →
            least (fold_left (λ best y, if (y <? best)%float then y else best)
                     xs best) (seen ++ xs)).
  { induction xs as [|y xs IH]; intros best seen Hbest; cbn.
    - by rewrite app_nil_r.
    - rewrite (assoc_L (++) seen [y] xs : seen ++ y :: xs = (seen ++ [y]) ++ xs).
      apply IH. destruct Hbest as [Hin Hall].
      destruct (y <? best)%float eqn:Hy; split.
      + apply elem_of_app. right. by apply list_elem_of_singleton.
      + apply Forall_app. split.
        * eapply Forall_impl; [exact Hall|]. intros z. by apply not_above_below.
        * constructor; [apply ltb_irrefl|constructor].
      + apply elem_of_app. by left.
      + apply Forall_app. split; [done|]. by constructor. }
  apply (Hgen x0 [x0]). split; [by apply list_elem_of_singleton|].
  constructor; [apply ltb_irrefl|constructor].
Qed.

(** ** SimpleRanker *)

Lemma dd_append_keys {V} (d : list (string * list V)) (k : string) (x : V) :
  (dd_append d k x).*1 = if decide (k ∈ d.*1) then d.*1 else d.*1 ++ [k].
Proof.
  induction d as [|[k' xs] d IH]; cbn.
  - rewrite decide_False; [done|]. apply not_elem_of_nil.
  - destruct (decide (k' = k)) as [->|Hne]; cbn.
    + rewrite decide_True; [done|]. apply elem_of_cons. by left.
    + rewrite IH. destruct (decide (k ∈ d.*1)) as [Hin|Hnin].
      * rewrite decide_True; [done|]. apply elem_of_cons. by right.
      * rewrite decide_False; [done|].
        intros [?|?]%elem_of_cons; congruence.
Qed.

Lemma dd_append_NoDup {V} (d : list (string * list V)) (k : string) (x : V) :
  NoDup d.*1 → NoDup (dd_append d k x).*1.
Proof.
  intros Hd. rewrite dd_append_keys. destruct (decide (k ∈ d.*1)); [done|].
  apply NoDup_app. split_and!; [done| |apply NoDup_singleton].
  intros y Hy ->%list_elem_of_singleton. done.
Qed.

Lemma dd_append_nonempty {V} (d : list (string * list V)) (k : string) (x : V) :
  Forall (λ kv, kv.2 ≠ []) d → Forall (λ kv, kv.2 ≠ []) (dd_append d k x).
Proof.
  induction 1 as [|[k' xs] d Hx Hd IH]; cbn.
  - constructor; [done|constructor].
  - destruct (decide (k' = k)); constructor; cbn; try done.
    intros Happ. by apply app_eq_nil in Happ as [_ ?].
Qed.

Lemma grouped_keys (ps : list (string * float)) d :
  NoDup d.*1 →
  NoDup (grouped ps d).*1 ∧
  ∀ p, p ∈ (grouped ps d).*1 ↔ p ∈ d.*1 ∨ p ∈ ps.*1.
Proof.
  revert d. induction ps as [|[p x] ps IH]; intros d Hd; cbn.
  - split; [done|]. intros p. rewrite elem_of_nil. tauto.
  - destruct (IH (dd_append d p x)) as [Hnd Hin]; [by apply dd_append_NoDup|].
    split; [done|]. intros q. rewrite Hin, dd_append_keys, elem_of_cons.
    destruct (decide (p ∈ d.*1)) as [Hp|Hp].
    + split; [tauto|]. intros [?|[->|?]]; tauto.
    + rewrite elem_of_app, list_elem_of_singleton. tauto.
Qed.

Lemma grouped_nonempty (ps : list (string * float)) d :
  Forall (λ kv, kv.2 ≠ []) d → Forall (λ kv, kv.2 ≠ []) (grouped ps d).
Proof.
  revert d. induction ps as [|[p x] ps IH]; intros d Hd; cbn; [done|].
  apply IH. by apply dd_append_nonempty.
Qed.




Lemma dd_get_append {V} (d : list (string * list V)) (k p : string) (x : V) :
  dd_get (dd_append d k x) p
  = dd_get d p ++ (if decide (k = p) then [x] else []).
Proof.
  induction d as [|[k' xs] d IH]; cbn.
  - destruct (decide (k = p)); done.
  - destruct (decide (k' = k)) as [->|Hne]; cbn.
    + destruct (decide (k = p)); [done|by rewrite app_nil_r].
    + destruct (decide (k' = p)) as [->|]; [|done].
      rewrite decide_False by done. by rewrite app_nil_r.
Qed.

Lemma dd_get_grouped (ps : list (string * float)) d (p : string) :
  dd_get (grouped ps d) p = dd_get d p ++ scores_of p ps.
Proof.
  revert d. induction ps as [|[k x] ps IH]; intros d.
  - unfold scores_of. cbn. by rewrite app_nil_r.
  - change (grouped ((k, x) :: ps) d) with (grouped ps (dd_append d k x)).
    rewrite IH, dd_get_append. unfold scores_of. rewrite filter_cons.
    cbn [fst]. destruct (decide (k = p)); cbn;
      by rewrite <- ?app_assoc, ?app_nil_r.
Qed.

Lemma dd_get_elem {V} (d : list (string * list V)) (p : string) (xs : list V) :
  NoDup d.*1 → (p, xs) ∈ d → dd_get d p = xs.
Proof.
  induction d as [|[k' ys] d IH]; cbn; [by intros _ ?%elem_of_nil|].
  intros [Hk Hd]%NoDup_cons [[= <- <-]|Hin]%elem_of_cons.
  - by rewrite decide_True.
  - rewrite decide_False; [by apply IH|]. intros ->. apply Hk.
    apply list_elem_of_fmap. by exists (p, xs).
Qed.

Lemma collect_spec (self : SimpleRanker.t) (ms : list Document.t) :
  SimpleRanker.collect self ms
  = ps ← chunk_scores (SimpleRanker.metric self) ms; Ok (grouped ps []).
Proof.
  unfold SimpleRanker.collect, chunk_scores. generalize (@nil (string * list float)).
  induction ms as [|m ms IH]; intros d; cbn; [done|].
  destruct (Document.score _ m) as [x|e]; cbn; [|done].
  rewrite IH. by destruct (map_each _ ms).
Qed.

Lemma chunk_scores_inv (metric : string) (ms : list Document.t) ps :
  chunk_scores metric ms = Ok ps →
  Forall2 (λ m px, px.1 = Document.parent_id m ∧
                   Document.scores m !! metric = Some px.2) ms ps.
Proof.
  intros Hps%map_each_inv. eapply Forall2_impl; [exact Hps|].
  intros m px. cbn. unfold Document.score.
  destruct (Document.scores m !! metric); cbn; [|done]. by intros [= <-].
Qed.

Lemma chunk_scores_Ok (metric : string) (ms : list Document.t) :
  Forall (λ m, is_Some (Document.scores m !! metric)) ms →
  ∃ ps, chunk_scores metric ms = Ok ps ∧ ps.*1 = Document.parent_id <$> ms.
Proof.
  intros Hms. unfold chunk_scores.
  edestruct (map_each_Ok
    (λ m, x ← Document.score metric m; Ok (Document.parent_id m, x)) ms)
    as (ps & Hps & _).
  { eapply Forall_impl; [exact Hms|]. intros m [x Hx]. cbn.
    unfold Document.score. rewrite Hx. by eexists. }
  exists ps. split; [done|].
  apply chunk_scores_inv in Hps. clear Hms.
  induction Hps as [|m px ms ps [Hp _] _ IH]; cbn; [done|].
  by rewrite Hp, IH.
Qed.

Lemma min_Ok (xs : list float) : xs ≠ [] → ∃ x, Py.min xs = Ok x.
Proof. destruct xs; [done|]. by eexists. Qed.

Lemma aggregate_Ok (self : SimpleRanker.t) (d : list (string * list float)) :
  Forall (λ kv, kv.2 ≠ []) d →
  ∃ out, SimpleRanker.aggregate self d = Ok out ∧
         Document.id <$> out = d.*1 ∧
         Forall (λ doc, ∃ p x,
                   doc = Document.new p {[ SimpleRanker.metric self := x ]}) out.
Proof.
  unfold SimpleRanker.aggregate.
  induction 1 as [|[p xs] d Hxs _ (out & Hout & Hid & Hnew)]; cbn.
  - by exists [].
  - destruct (min_Ok xs Hxs) as [x Hx]. rewrite Hx, !bind_Ok, Hout, bind_Ok.
    eexists. split; [done|]. cbn. rewrite Hid. split; [done|].
    constructor; [by eexists _, _|done].
Qed.

Lemma insert_key_perm {A} (kx : float * A) (l : list (float * A)) :
  insert_key kx l ≡ₚ kx :: l.
Proof.
  induction l as [|ky l IH]; cbn; [done|].
  destruct (kx.1 <? ky.1)%float; [done|]. rewrite IH. apply Permutation_swap.
Qed.

Lemma sort_keyed_perm {A} (l : list (float * A)) : sort_keyed l ≡ₚ l.
Proof.
  unfold sort_keyed. rewrite <- (app_nil_l l) at 2.
  generalize (@nil (float * A)).
  induction l as [|kx l IH]; intros acc; cbn.
  - by rewrite app_nil_r.
  - rewrite IH, insert_key_perm. cbn. apply Permutation_middle.
Qed.

Lemma sorted_perm {A} (key : A → result float) (l : list A) :
  Forall (λ x, is_Ok (key x)) l → ∃ out, Py.sorted key l = Ok out ∧ out ≡ₚ l.
Proof.
  intros (keys & Hkeys & Hall)%map_each_Ok. unfold Py.sorted.
  rewrite Hkeys, bind_Ok. eexists. split; [done|].
  rewrite sort_keyed_perm. rewrite snd_zip; [done|].
  by rewrite (Forall2_length _ _ _ Hall).
Qed.

Lemma insert_key_sorted {A} (kx : float * A) (l : list (float * A)) :
  StronglySorted (λ a b, not_above a.1 b.1) l →
  StronglySorted (λ a b, not_above a.1 b.1) (insert_key kx l).
Proof.
  induction l as [|ky l IH]; cbn; intros Hl.
  - by repeat constructor.
  - apply StronglySorted_cons in Hl as [Hky Hl].
    destruct (kx.1 <? ky.1)%float eqn:Hlt.
    + apply StronglySorted_cons. split; [|by apply StronglySorted_cons].
      constructor; [by apply below_not_above|].
      eapply Forall_impl; [exact Hky|]. intros z. by apply not_above_below.
    + apply StronglySorted_cons. split; [|by apply IH].
      rewrite insert_key_perm. by constructor.
Qed.

Lemma sort_keyed_sorted {A} (l : list (float * A)) :
  StronglySorted (λ a b, not_above a.1 b.1) (sort_keyed l).
Proof.
  unfold sort_keyed.
  assert (Hnil : StronglySorted (λ a b : float * A, not_above a.1 b.1) [])
    by constructor.
  revert Hnil. generalize (@nil (float * A)).
  induction l as [|kx l IH]; intros acc Hacc; cbn; [done|].
  by apply IH, insert_key_sorted.
Qed.

(** The items of [sorted(l, key)] are in ascending order of their keys. *)
Lemma sorted_ascending {A} (key : A → result float) (l out : list A) :
  Py.sorted key l = Ok out →
  StronglySorted
    (λ a b, ∃ x y, key a = Ok x ∧ key b = Ok y ∧ not_above x y) out.
Proof.
  unfold Py.sorted. destruct (map_each key l) as [keys|e] eqn:Hkeys; [|done].
  rewrite bind_Ok. intros [= <-]. apply map_each_inv in Hkeys.
  assert (Hz : Forall (λ p, key p.2 = Ok p.1) (sort_keyed (zip keys l))).
  { rewrite sort_keyed_perm. clear -Hkeys.
    induction Hkeys; cbn; constructor; done. }
  assert (Hs := sort_keyed_sorted (zip keys l)).
  induction Hs as [|p s Hs IH Hp]; [constructor|].
  apply Forall_cons in Hz as [Hp1 Hz]. cbn. constructor; [by apply IH|].
  apply Forall_fmap, Forall_forall. intros p' Hp'. cbn.
  rewrite Forall_forall in Hp, Hz. exists p.1, p'.1. split_and!; auto.
Qed.

Lemma score_new (metric p : string) (x : float) :
  Document.score metric (Document.new p {[ metric := x ]}) = Ok x.
Proof. unfold Document.score. cbn. by rewrite lookup_singleton_eq. Qed.

(** What [rank_doc] leaves in [doc.matches], for matches that all carry a
    score under the metric. *)
Lemma rank_doc_spec (self : SimpleRanker.t) (q : QueryDoc) :
  Forall (λ m, is_Some (Document.scores m !! SimpleRanker.metric self))
    (matches q) →
  ∃ ps out ranked,
    chunk_scores (SimpleRanker.metric self) (matches q) = Ok ps ∧
    SimpleRanker.aggregate self (grouped ps []) = Ok out ∧
    Py.sorted (Document.score (SimpleRanker.metric self)) out = Ok ranked ∧
    ranked ≡ₚ out ∧
    SimpleRanker.rank_doc self q = Ok (mkQueryDoc (root q) ranked).
Proof.
  intros Hq. destruct (chunk_scores_Ok _ _ Hq) as (ps & Hps & _).
  destruct (aggregate_Ok self (grouped ps [])) as (out & Hout & _ & Hnew).
  { apply grouped_nonempty. constructor. }
  destruct (sorted_perm (Document.score (SimpleRanker.metric self)) out)
    as (ranked & Hranked & Hperm).
  { eapply Forall_impl; [exact Hnew|]. intros d (p & x & ->).
    eexists. apply score_new. }
  exists ps, out, ranked. split_and!; try done.
  unfold SimpleRanker.rank_doc.
  by rewrite collect_spec, Hps, !bind_Ok, Hout, bind_Ok, Hranked, bind_Ok.
Qed.

Lemma aggregate_inv (self : SimpleRanker.t) d out :
  SimpleRanker.aggregate self d = Ok out →
  Forall2 (λ kv doc, ∃ x, Py.min kv.2 = Ok x ∧
                          doc = Document.new kv.1
                                  {[ SimpleRanker.metric self := x ]}) d out.
Proof.
  intros Hout%map_each_inv. eapply Forall2_impl; [exact Hout|].
  intros [p xs] doc. cbn. destruct (Py.min xs) as [x|e]; [|done].
  rewrite bind_Ok. intros [= <-]. by exists x.
Qed.

(** The ranker in general: the new matches are in ascending order of score,
    and the score of each is a least one among the scores of the chunks of
    that parent. *)
Lemma rank_doc_ascending_least (self : SimpleRanker.t) (q : QueryDoc) :
  Forall (λ m, is_Some (Document.scores m !! SimpleRanker.metric self))
    (matches q) →
  ∃ ps ranked,
    chunk_scores (SimpleRanker.metric self) (matches q) = Ok ps ∧
    SimpleRanker.rank_doc self q = Ok (mkQueryDoc (root q) ranked) ∧
    StronglySorted
      (λ a b, ∃ x y,
         Document.score (SimpleRanker.metric self) a = Ok x ∧
         Document.score (SimpleRanker.metric self) b = Ok y ∧
         not_above x y) ranked ∧
    Forall (λ d, ∃ x,
              d = Document.new (Document.id d)
                    {[ SimpleRanker.metric self := x ]} ∧
              least x (scores_of (Document.id d) ps)) ranked.
Proof.
  intros Hq.
  destruct (rank_doc_spec self q Hq)
    as (ps & out & ranked & Hps & Hout & Hsorted & Hperm & Hrank).
  exists ps, ranked. split_and!; try done.
  - by apply (sorted_ascending _ out).
  - rewrite Hperm. apply aggregate_inv in Hout.
    destruct (grouped_keys ps []) as [Hnd _]; [constructor|].
    apply Forall_forall. intros doc Hdoc.
    apply (list_elem_of_lookup_1 out) in Hdoc as [i Hi].
    destruct (Forall2_lookup_r _ _ _ _ _ Hout Hi)
      as ([p xs] & Hpx & x & Hx & ->).
    exists x. split; [done|]. cbn in *.
    apply min_least in Hx.
    rewrite <- (dd_get_elem (grouped ps []) p xs) in Hx;
      [|done|by eapply list_elem_of_lookup_2].
    by rewrite dd_get_grouped in Hx.
Qed.








(** The ranker is not meant to be fed its own output: the parent-level
    matches it builds carry no [parent_id], so a second pass over the same
    document groups them all under the empty parent. *)
Remark rank_again_collapses :
  SimpleRanker.rank_doc (SimpleRanker.mk "cosine")
    (mkQueryDoc (Document.new "q" ∅)
       [parent "parentA" 0.05; parent "parentB" 0.2])
  = Ok (mkQueryDoc (Document.new "q" ∅) [parent "" 0.05]).
Proof. vm_compute. reflexivity. Qed.

(** ** LMDBStorage *)

Section storage.
Variable copy_from : Document.t → Document.t → Document.t.

Lemma resolve_present (tx : gmap string Document.t) (m d : Document.t) :
  tx !! Document.id m = Some d →
  LMDBStorage.resolve_in_place copy_from tx m
  = (Document.set_id (copy_from m d) (Document.id m), Ok ()).
Proof.
  intros Hd. unfold LMDBStorage.resolve_in_place, LMDBStorage.resolve.
  by rewrite Hd.
Qed.

Lemma resolve_absent (tx : gmap string Document.t) (m : Document.t) :
  tx !! Document.id m = None →
  LMDBStorage.resolve_in_place copy_from tx m = (m, Raise TypeError).
Proof.
  intros Hd. unfold LMDBStorage.resolve_in_place, LMDBStorage.resolve.
  by rewrite Hd.
Qed.

Lemma resolve_all_present (tx : gmap string Document.t) (ms : list Document.t) :
  Forall (present tx) ms →
  Forall (λ m, ∃ m', LMDBStorage.resolve_in_place copy_from tx m = (m', Ok ()) ∧
                     resolved copy_from tx m m') ms.
Proof.
  intros Hms. eapply Forall_impl; [exact Hms|].
  intros m [d Hd]. eexists. split.
  - by apply resolve_present.
  - by exists d.
Qed.

Lemma resolve_docs_present (tx : gmap string Document.t) (docs : list QueryDoc) :
  Forall (λ q, Forall (present tx) (matches q)) docs →
  Forall (λ q, ∃ q',
            (let '(ms, r) :=
               update_each (LMDBStorage.resolve_in_place copy_from tx)
                 (matches q) in
             (mkQueryDoc (root q) ms, r)) = (q', Ok ()) ∧
            resolved_doc copy_from tx q q') docs.
Proof.
  intros Hdocs. eapply Forall_impl; [exact Hdocs|]. intros q Hq.
  destruct (update_each_Ok _ _ _ (resolve_all_present tx _ Hq))
    as (ms' & Hms & Hres).
  exists (mkQueryDoc (root q) ms'). rewrite Hms. by split.
Qed.

End storage.




(** C6, as the code has it.  [search] stops at the first match whose id is
    not in the database: the call ends with the exception of that lookup,
    the matches before it (in the earlier documents and earlier in the same
    document) are resolved, and that match and everything after it are left
    as they were. *)
Theorem search_stops_at_first_absent
    (copy_from : Document.t → Document.t → Document.t)
    (tx : gmap string Document.t) (pre post : list QueryDoc) (q : QueryDoc)
    (ms1 ms2 : list Document.t) (m : Document.t) :
  Forall (λ q, Forall (present tx) (matches q)) pre →
  matches q = ms1 ++ m :: ms2 →
  Forall (present tx) ms1 →
  tx !! Document.id m = None →
  ∃ pre' ms1',
    LMDBStorage.search copy_from tx (Some (pre ++ q :: post))
    = (Some (pre' ++ mkQueryDoc (root q) (ms1' ++ m :: ms2) :: post),
       Raise TypeError) ∧
    Forall2 (resolved_doc copy_from tx) pre pre' ∧
    Forall2 (resolved copy_from tx) ms1 ms1'.
Proof.
  intros Hpre Hq Hms1 Hm. unfold LMDBStorage.search.
  destruct (update_each_stop _ _ ms1 ms2 m m TypeError
              (resolve_all_present copy_from tx _ Hms1)
              (resolve_absent copy_from tx m Hm)) as (ms1' & Hinner & Hres1).
  edestruct (update_each_stop
               (λ doc, let '(ms, r) :=
                         update_each (LMDBStorage.resolve_in_place copy_from tx)
                           (matches doc) in
                       (mkQueryDoc (root doc) ms, r))
               (resolved_doc copy_from tx) pre post q
               (mkQueryDoc (root q) (ms1' ++ m :: ms2)) TypeError
               (resolve_docs_present copy_from tx _ Hpre))
    as (pre' & Houter & Hres).
  { by rewrite Hq, Hinner. }
  exists pre', ms1'. by rewrite Houter.
Qed.

Lemma search_stops_at_first_absent_witness :
  ∃ pre' ms1',
    LMDBStorage.search LMDBStorage.copy_from_overwrite
      (LMDBStorage.index ∅ (Some [stored_parentB]))
      (Some ([] ++ mkQueryDoc (Document.new "q" ∅)
                     [parent "parentB" 0.2; parent "parentA" 0.3] :: []))
    = (Some (pre' ++ mkQueryDoc (Document.new "q" ∅)
                       (ms1' ++ parent "parentA" 0.3 :: []) :: []),
       Raise TypeError) ∧
    Forall2 (resolved_doc LMDBStorage.copy_from_overwrite
               (LMDBStorage.index ∅ (Some [stored_parentB]))) [] pre' ∧
    Forall2 (resolved LMDBStorage.copy_from_overwrite
               (LMDBStorage.index ∅ (Some [stored_parentB])))
      [parent "parentB" 0.2] ms1'.
Proof.
  apply (search_stops_at_first_absent LMDBStorage.copy_from_overwrite
           (LMDBStorage.index ∅ (Some [stored_parentB])) [] []
           (mkQueryDoc (Document.new "q" ∅)
              [parent "parentB" 0.2; parent "parentA" 0.3])
           [parent "parentB" 0.2] [] (parent "parentA" 0.3)).
  - constructor.
  - reflexivity.
  - repeat constructor. eexists. vm_compute. reflexivity.
  - vm_compute. reflexivity.
Defined.

(** C6 fails for the matches behind the absent one.  Parent A, ranked first,
    is not in the database and parent B is: the call ends with the exception
    of the lookup of parent A and leaves the match of parent B as it was,
    unresolved. *)
Lemma search_leaves_later_matches_unresolved :
  LMDBStorage.search LMDBStorage.copy_from_overwrite
    (LMDBStorage.index ∅ (Some [stored_parentB])) (Some [query_AB])
  = (Some [query_AB], Raise TypeError) ∧
  present (LMDBStorage.index ∅ (Some [stored_parentB])) (parent "parentB" 0.2) ∧
  ¬ resolved LMDBStorage.copy_from_overwrite
      (LMDBStorage.index ∅ (Some [stored_parentB]))
      (parent "parentB" 0.2) (parent "parentB" 0.2).
Proof.
  split_and!.
  - vm_compute. reflexivity.
  - eexists. vm_compute. reflexivity.
  - intros (d & Hd & Heq). vm_compute in Hd. injection Hd as <-.
    vm_compute in Heq. discriminate.
Qed.

(** ** Binary64 addition of integers

    Integers below [2 ^ 53] in magnitude are floats, and adding two of them
    is exact as long as the sum stays below [2 ^ 53]. *)

Lemma digits2_pos_log2 (p : positive) :
  Z.pos (digits2_pos p) = Z.log2 (Z.pos p) + 1.
Proof.
  induction p as [p IH|p IH|]; cbn [digits2_pos]; [| |done].
  - rewrite Pos2Z.inj_succ, IH.
    change (Z.pos p~1) with (2 * Z.pos p + 1).
    rewrite Z.log2_succ_double by lia. lia.
  - rewrite Pos2Z.inj_succ, IH.
    change (Z.pos p~0) with (2 * Z.pos p).
    rewrite Z.log2_double by lia. lia.
Qed.

Lemma fexp64 (x : Z) : fexp prec emax x = Z.max (x - 53) (-1074).
Proof. reflexivity. Qed.

Lemma shr_1_double (q : Z) :
  0 ≤ q →
  shr_1 (Build_shr_record (2 * q) false false) = Build_shr_record q false false.
Proof. intros Hq. destruct q as [|q|q]; [done|done|lia]. Qed.

Lemma iter_shr_1_exact (n : positive) (q : Z) :
  0 ≤ q →
  SpecFloat.iter_pos shr_1 n (Build_shr_record (q * 2 ^ Z.pos n) false false)
  = Build_shr_record q false false.
Proof.
  revert q. induction n as [n IH|n IH|]; intros q Hq; cbn [SpecFloat.iter_pos].
  - assert (Hp : 2 ^ Z.pos n~1 = 2 * (2 ^ Z.pos n * 2 ^ Z.pos n)).
    { rewrite <- Z.pow_add_r, <- Z.pow_succ_r by lia. f_equal. lia. }
    replace (q * 2 ^ Z.pos n~1) with (2 * ((q * 2 ^ Z.pos n) * 2 ^ Z.pos n))
      by (rewrite Hp; ring).
    rewrite shr_1_double by (apply Z.mul_nonneg_nonneg; lia).
    rewrite IH by lia. by apply IH.
  - assert (Hp : 2 ^ Z.pos n~0 = 2 ^ Z.pos n * 2 ^ Z.pos n).
    { rewrite <- Z.pow_add_r by lia. f_equal. lia. }
    replace (q * 2 ^ Z.pos n~0) with ((q * 2 ^ Z.pos n) * 2 ^ Z.pos n)
      by (rewrite Hp; ring).
    rewrite IH by lia. by apply IH.
  - rewrite Z.pow_1_r, Z.mul_comm. by apply shr_1_double.
Qed.

Lemma iter_xO_pow (p : positive) (k : positive) :
  Z.pos (Pos.iter xO p k) = Z.pos p * 2 ^ Z.pos k.
Proof.
  induction k as [|k IH] using Pos.peano_ind.
  - cbn. lia.
  - rewrite Pos.iter_succ, Pos2Z.inj_xO, IH, Pos2Z.inj_succ, Z.pow_succ_r by lia.
    ring.
Qed.

(** Rounding a mantissa that needs none: either the exponent is at least the
    canonical one, or the bits to drop are zero. *)
Lemma binary_round_exact (s : bool) (m : positive) (e : Z) :
  let ec := fexp prec emax (Z.pos (digits2_pos m) + e) in
  ec ≤ emax - prec →
  (ec ≤ e ∨ ∃ q, Z.pos m = q * 2 ^ (ec - e)) →
  ∃ mc, binary_round prec emax s m e = S754_finite s mc ec ∧
        valid_binary (S754_finite s mc ec) = true ∧
        (ec ≤ e → Z.pos mc = Z.pos m * 2 ^ (e - ec)) ∧
        (e ≤ ec → Z.pos mc * 2 ^ (ec - e) = Z.pos m).
Proof.
  intros ec. assert (Hec : fexp prec emax (Z.pos (digits2_pos m) + e) = ec)
    by done. clearbody ec. intros Hmax Hexact.
  unfold binary_round, shl_align. rewrite Hec.
  assert (Hle : (ec <=? emax - prec) = true) by by apply Z.leb_le.
  assert (Hfin : ∀ mz, fexp prec emax (Z.pos (digits2_pos mz) + ec) = ec →
            binary_round_aux prec emax s (Z.pos mz) ec loc_Exact
            = S754_finite s mz ec ∧
            valid_binary (S754_finite s mz ec) = true).
  { intros mz Hmz. unfold binary_round_aux, shr_fexp, shr. cbn [Zdigits2].
    rewrite Hmz, Z.sub_diag. cbn [shr_record_of_loc shr_m loc_of_shr_record
      round_nearest_even Zdigits2]. rewrite Hmz, Z.sub_diag.
    cbn [shr_record_of_loc shr_m]. rewrite Hle. split; [done|].
    cbn [SpecFloat.valid_binary]. unfold bounded, canonical_mantissa.
    by rewrite Hmz, Z.eqb_refl, Hle. }
  destruct (ec - e) as [|n|n] eqn:Hn.
  - assert (e = ec) as -> by lia.
    destruct (Hfin m) as [-> Hv]; [done|]. exists m. split_and!; try done.
    + intros _. rewrite ?Z.sub_diag, ?Z.pow_0_r. lia.
    + intros _. rewrite ?Z.sub_diag, ?Z.pow_0_r. lia.
  - destruct Hexact as [?|[q Hq]]; [lia|].
    assert (0 < q).
    { assert (0 < 2 ^ Z.pos n) by (apply Z.pow_pos_nonneg; lia). nia. }
    destruct q as [|q|q]; try lia.
    assert (Hd : Z.pos (digits2_pos q) + ec = Z.pos (digits2_pos m) + e).
    { rewrite !digits2_pos_log2, Hq, Z.log2_mul_pow2 by lia. lia. }
    unfold binary_round_aux, shr_fexp, shr. cbn [Zdigits2]. rewrite Hec, Hn.
    cbn [shr_record_of_loc]. rewrite Hq, iter_shr_1_exact by lia.
    cbn [shr_m loc_of_shr_record round_nearest_even Zdigits2].
    replace (e + Z.pos n) with ec by lia. rewrite Hd, Hec, Z.sub_diag.
    cbn [shr_record_of_loc shr_m]. rewrite Hle.
    exists q. split_and!; try done; [|lia].
    cbn [SpecFloat.valid_binary]. unfold bounded, canonical_mantissa.
    by rewrite Hd, Hec, Z.eqb_refl, Hle.
  - assert (Hd : Z.pos (digits2_pos (Pos.iter xO m n)) + ec
                 = Z.pos (digits2_pos m) + e).
    { rewrite !digits2_pos_log2, iter_xO_pow, Z.log2_mul_pow2 by lia. lia. }
    destruct (Hfin (Pos.iter xO m n)) as [-> Hv]; [by rewrite Hd|].
    exists (Pos.iter xO m n). split_and!; try done; [|lia].
    intros _. rewrite iter_xO_pow. f_equal. f_equal. lia.
Qed.

(** The float of a non-zero integer below [2 ^ 53], however the integer is
    presented as a mantissa and a non-positive exponent. *)
Lemma normalize_exact (M e v : Z) :
  v ≠ 0 → Z.abs v < 2 ^ 53 → -1021 ≤ e ≤ 0 → M = v * 2 ^ (- e) →
  ∃ mc, binary_normalize prec emax M e false
        = S754_finite (v <? 0) mc (Z.log2 (Z.abs v) - 52) ∧
        valid_binary (S754_finite (v <? 0) mc (Z.log2 (Z.abs v) - 52)) = true ∧
        Z.pos mc = Z.abs v * 2 ^ (52 - Z.log2 (Z.abs v)).
Proof.
  intros Hv Hlt He HM.
  assert (Hpow : 0 < 2 ^ (- e)) by (apply Z.pow_pos_nonneg; lia).
  assert (Hlog : 0 ≤ Z.log2 (Z.abs v) < 53).
  { split; [apply Z.log2_nonneg|]. apply Z.log2_lt_pow2; lia. }
  set (ec := Z.log2 (Z.abs v) - 52) in *.
  assert (Hround : ∀ p, Z.pos p = Z.abs v * 2 ^ (- e) →
            ∃ mc, binary_round prec emax (v <? 0) p e
                  = S754_finite (v <? 0) mc ec ∧
                  valid_binary (S754_finite (v <? 0) mc ec) = true ∧
                  Z.pos mc = Z.abs v * 2 ^ (- ec)).
  { intros p Hp.
    assert (Hec : fexp prec emax (Z.pos (digits2_pos p) + e) = ec).
    { rewrite fexp64, digits2_pos_log2, Hp, Z.log2_mul_pow2 by lia.
      unfold ec. lia. }
    destruct (binary_round_exact (v <? 0) p e) as (mc & Hr & Hvalid & Hge & Hle).
    - rewrite Hec. unfold ec, emax, prec. lia.
    - rewrite Hec. destruct (decide (ec ≤ e)) as [|Hgt]; [by left|right].
      exists (Z.abs v * 2 ^ (- ec)). rewrite Hp, <- Z.mul_assoc.
      rewrite <- Z.pow_add_r by (unfold ec in *; lia). do 2 f_equal. lia.
    - rewrite Hec in Hr, Hvalid, Hge, Hle. exists mc. split_and!; try done.
      destruct (decide (ec ≤ e)) as [Hc|Hc].
      + rewrite (Hge Hc), Hp, <- Z.mul_assoc, <- Z.pow_add_r by lia.
        do 2 f_equal. lia.
      + assert (Hm := Hle ltac:(lia)). rewrite Hp in Hm.
        replace (- e) with (- ec + (ec - e)) in Hm by lia.
        rewrite Z.pow_add_r, Z.mul_assoc in Hm by (unfold ec in *; lia).
        apply Z.mul_reg_r in Hm; [done|].
        apply Z.neq_sym, Z.lt_neq, Z.pow_pos_nonneg; lia. }
  replace (52 - Z.log2 (Z.abs v)) with (- ec) by (unfold ec; lia).
  destruct M as [|p|p]; cbn [binary_normalize].
  - nia.
  - assert (0 < v) by nia. replace (v <? 0) with false in *
      by (symmetry; apply Z.ltb_ge; lia).
    apply Hround. rewrite Z.abs_eq by lia. done.
  - assert (v < 0) by nia. replace (v <? 0) with true in *
      by (symmetry; apply Z.ltb_lt; lia).
    apply Hround. rewrite Z.abs_neq by lia. lia.
Qed.

Lemma Prim2SF_float_of_Z (v : Z) :
  v ≠ 0 → Z.abs v < 2 ^ 53 →
  ∃ mc, Prim2SF (float_of_Z v)
        = S754_finite (v <? 0) mc (Z.log2 (Z.abs v) - 52) ∧
        Z.pos mc = Z.abs v * 2 ^ (52 - Z.log2 (Z.abs v)).
Proof.
  intros Hv Hlt.
  destruct (normalize_exact v 0 v) as (mc & Hn & Hvalid & Hmc); try done.
  { cbn. lia. }
  exists mc. unfold float_of_Z. rewrite Hn. split; [|done].
  by apply Prim2SF_SF2Prim.
Qed.

Lemma shl_align_fst (m : positive) (e e' : Z) :
  e' ≤ e → Z.pos (shl_align m e e').1 = Z.pos m * 2 ^ (e - e').
Proof.
  intros He. unfold shl_align. destruct (e' - e) as [|d|d] eqn:Hd; cbn [fst].
  - replace (e - e') with 0 by lia. lia.
  - lia.
  - rewrite iter_xO_pow. do 2 f_equal. lia.
Qed.

(** Float addition is exact on integers below [2 ^ 53]. *)
Theorem float_add_exact (a b : Z) :
  Z.abs a < 2 ^ 53 → Z.abs b < 2 ^ 53 → Z.abs (a + b) < 2 ^ 53 →
  (float_of_Z a + float_of_Z b)%float = float_of_Z (a + b).
Proof.
  intros Ha Hb Hab. apply Prim2SF_inj. rewrite add_spec.
  destruct (decide (a = 0)) as [->|Ha0].
  { change (Prim2SF (float_of_Z 0)) with (S754_zero false).
    rewrite Z.add_0_l.
    destruct (decide (b = 0)) as [->|Hb0]; [done|].
    destruct (Prim2SF_float_of_Z b Hb0 Hb) as (mb & -> & _). reflexivity. }
  destruct (Prim2SF_float_of_Z a Ha0 Ha) as (ma & Hpa & Hma).
  destruct (decide (b = 0)) as [->|Hb0].
  { change (Prim2SF (float_of_Z 0)) with (S754_zero false).
    rewrite Z.add_0_r, Hpa. reflexivity. }
  rewrite Hpa. clear Hpa.
  destruct (Prim2SF_float_of_Z b Hb0 Hb) as (mb & -> & Hmb).
  assert (Hla : 0 ≤ Z.log2 (Z.abs a) < 53).
  { split; [apply Z.log2_nonneg|]. apply Z.log2_lt_pow2; lia. }
  assert (Hlb : 0 ≤ Z.log2 (Z.abs b) < 53).
  { split; [apply Z.log2_nonneg|]. apply Z.log2_lt_pow2; lia. }
  unfold SF64add, SFadd.
  set (ea := Z.log2 (Z.abs a) - 52) in *.
  set (eb := Z.log2 (Z.abs b) - 52) in *.
  set (ez := Z.min ea eb).
  rewrite !shl_align_fst by (unfold ez; lia). rewrite Hma, Hmb.
  assert (HM : cond_Zopp (a <? 0)
                 (Z.abs a * 2 ^ (52 - Z.log2 (Z.abs a)) * 2 ^ (ea - ez))
               + cond_Zopp (b <? 0)
                   (Z.abs b * 2 ^ (52 - Z.log2 (Z.abs b)) * 2 ^ (eb - ez))
               = (a + b) * 2 ^ (- ez)).
  { assert (Hsa : ∀ x, cond_Zopp (a <? 0) (Z.abs a * x) = a * x).
    { intros x. destruct (Z.ltb_spec a 0); cbn;
        [rewrite Z.abs_neq|rewrite Z.abs_eq]; lia. }
    assert (Hsb : ∀ x, cond_Zopp (b <? 0) (Z.abs b * x) = b * x).
    { intros x. destruct (Z.ltb_spec b 0); cbn;
        [rewrite Z.abs_neq|rewrite Z.abs_eq]; lia. }
    rewrite <- !Z.mul_assoc, <- !Z.pow_add_r by (unfold ea, eb, ez in *; lia).
    rewrite Hsa, Hsb.
    replace (52 - Z.log2 (Z.abs a) + (ea - ez)) with (- ez) by (unfold ea; lia).
    replace (52 - Z.log2 (Z.abs b) + (eb - ez)) with (- ez) by (unfold eb; lia).
    ring. }
  rewrite HM.
  destruct (decide (a + b = 0)) as [Hz|Hnz].
  { rewrite Hz. by change (Prim2SF (float_of_Z 0)) with (S754_zero false). }
  destruct (normalize_exact ((a + b) * 2 ^ (- ez)) ez (a + b))
    as (m1 & -> & _ & Hm1); try done.
  { unfold ez, ea, eb. lia. }
  destruct (Prim2SF_float_of_Z (a + b) Hnz Hab) as (m2 & -> & Hm2).
  f_equal. apply Pos2Z.inj. by rewrite Hm1, Hm2.
Qed.

Lemma float_sum_exact (vs : list number) (s : Z) :
  Forall (λ v, ∃ z, v = Int z) vs →
  Z.abs s + foldr Z.add 0 (Z.abs ∘ int_value <$> vs) < 2 ^ 53 →
  float_sum (float_of_Z s) vs
  = float_of_Z (s + foldr Z.add 0 (int_value <$> vs)).
Proof.
  intros Hvs. revert s. unfold float_sum.
  induction Hvs as [|v vs [z ->] _ IH]; intros s Hs; cbn in *.
  - by rewrite Z.add_0_r.
  - assert (0 ≤ foldr Z.add 0 (Z.abs ∘ int_value <$> vs)).
    { clear. induction vs as [|v vs IH]; cbn; lia. }
    rewrite float_add_exact by lia. rewrite IH by lia. f_equal. lia.
Qed.

(** ** The sign of binary64 products and remainders *)











(** ** TagsHasher *)

Section hasher_facts.
Context `{Builtins}.
Implicit Types (self : TagsHasher.t) (v : value) (k s : string).

Lemma any_hash_str_Ok self s : is_Ok (TagsHasher._any_hash self (VStr s)).
Proof.
  unfold TagsHasher._any_hash. cbn.
  destruct (str_to_int s); [by eexists|].
  destruct (str_to_float s); [by eexists|].
  destruct (negb _); [by eexists|].
  repeat (destruct (bool_decide _); [by eexists|]). by eexists.
Qed.

(** The digest is only ever taken of a string: when [int] and [float] both
    reject a value with a [ValueError], the value is a string. *)
Lemma any_hash_digest_only_str v :
  py_int v = Raise ValueError → py_float v = Raise ValueError →
  ∃ s, v = VStr s.
Proof. destruct v; cbn; try done. by eexists. Qed.

Lemma any_hash_plain self s :
  plain s →
  TagsHasher._any_hash self (VStr s)
  = Ok (Int (Z.of_N (TagsHasher.hash self (str_strip s)))).
Proof.
  intros (Hi & Hf & Hne & Ht & Hff). unfold TagsHasher._any_hash. cbn.
  rewrite Hi, Hf, Ht, Hff.
  destruct (String.eqb_spec s ""); [done|]. done.
Qed.



Lemma py_mod_zero (x : number) : py_mod x 0 = Raise ZeroDivisionError.
Proof.
  destruct x as [z|f]; [done|]. unfold py_mod. cbn.
  change (is_infinity (float_of_Z 0)) with false. cbn.
  unfold float_rem. by change (float_of_Z 0 =? 0)%float with true.
Qed.

Lemma contribution_raises self k v :
  TagsHasher.n_dim self = 0 ∨ TagsHasher.max_val self = 0 →
  ∃ e, TagsHasher.contribution self (k, v) = Raise e.
Proof.
  intros Hcfg. unfold TagsHasher.contribution.
  destruct (TagsHasher._any_hash self (VStr k)) as [h|e]; [|by eexists].
  rewrite bind_Ok.
  destruct (py_mod h (TagsHasher.n_dim self)) as [col|e] eqn:Hcol;
    [|by eexists].
  destruct Hcfg as [Hn|Hm]; [by rewrite Hn, py_mod_zero in Hcol|].
  rewrite bind_Ok.
  destruct (TagsHasher._any_hash self v) as [val|e]; [|by eexists].
  rewrite bind_Ok, Hm, py_mod_zero. by eexists.
Qed.


(** C4 on the code: a null, a list, a tuple and a mapping all make
    [_any_hash] raise.  [int(v)] raises a [TypeError] for them, which the
    handler of [ValueError] lets through, so neither the branch for empty
    values nor the one that serialises composites is reached. *)
Theorem any_hash_raises_on_null_and_composites self :
  TagsHasher._any_hash self VNone = Raise TypeError ∧
  (∀ l, TagsHasher._any_hash self (VList l) = Raise TypeError) ∧
  (∀ l, TagsHasher._any_hash self (VTuple l) = Raise TypeError) ∧
  (∀ d, TagsHasher._any_hash self (VDict d) = Raise TypeError).
Proof. by split_and!. Qed.

(** Where [_any_hash] does return: integers and booleans are returned as
    they are, and every string gives a number. *)
Lemma any_hash_scalars self :
  (∀ z, TagsHasher._any_hash self (VInt z) = Ok (Int z)) ∧
  (∀ b, TagsHasher._any_hash self (VBool b) = Ok (Int (if b then 1 else 0))) ∧
  (∀ s, is_Ok (TagsHasher._any_hash self (VStr s))).
Proof. split_and!; try done. apply any_hash_str_Ok. Qed.

(** C9, as the code has it.  The constructor checks nothing: it returns a
    hasher holding [n_dim] and [max_val] as given, whatever their sign.  A
    non-positive [n_dim] or a zero [max_val] shows only later, when [encode]
    meets a document with tags and raises. *)
Theorem init_accepts_any_configuration (n m : Z) (sp : bool) :
  TagsHasher.__init__ n m sp = Ok (TagsHasher.mk n m md5 sp) ∧
  ∀ doc, tags doc ≠ [] → n ≤ 0 ∨ m = 0 →
         ∃ e, TagsHasher.encode_doc (TagsHasher.mk n m md5 sp) doc = Raise e.
Proof.
  split; [done|]. intros [[|[k v] rest] emb] Htags Hcfg; [done|].
  unfold TagsHasher.encode_doc, np_zeros. cbn [tags TagsHasher.n_dim].
  destruct (n <? 0) eqn:Hn; [by eexists|]. rewrite bind_Ok.
  destruct (contribution_raises (TagsHasher.mk n m md5 sp) k v) as [e He].
  { cbn. lia. }
  exists e. cbn [for_each]. unfold TagsHasher.add_tag. by rewrite He.
Qed.


Lemma map_each_perm {A B} (f : A → result B) (l l' : list A) (ys : list B) :
  l ≡ₚ l' → map_each f l = Ok ys →
  ∃ ys', map_each f l' = Ok ys' ∧ ys ≡ₚ ys'.
Proof.
  intros Hperm. revert ys.
  induction Hperm as [|x l l' _ IH|x y l|l l' l'' _ IH1 _ IH2]; intros ys; cbn.
  - intros [= <-]. by exists [].
  - destruct (f x) as [z|e]; [|done]. rewrite !bind_Ok.
    destruct (map_each f l) as [zs|e]; [|done]. rewrite bind_Ok.
    intros [= <-]. destruct (IH zs eq_refl) as (zs' & -> & Hzs).
    exists (z :: zs'). split; [done|by constructor].
  - destruct (f y) as [b|e]; [|done]. rewrite !bind_Ok.
    destruct (f x) as [a|e]; [|done]. rewrite !bind_Ok.
    destruct (map_each f l) as [zs|e]; [|done]. rewrite !bind_Ok.
    intros [= <-]. exists (a :: b :: zs). split; [done|apply Permutation_swap].
  - intros Hys. destruct (IH1 _ Hys) as (ys' & Hys' & Hp1).
    destruct (IH2 _ Hys') as (ys'' & Hys'' & Hp2).
    exists ys''. split; [done|by etrans].
Qed.

Lemma contribution_col_range self kv c val :
  0 < TagsHasher.n_dim self →
  TagsHasher.contribution self kv = Ok (Int c, val) →
  0 ≤ c < TagsHasher.n_dim self.
Proof.
  intros Hn. destruct kv as [k v]. unfold TagsHasher.contribution.
  destruct (TagsHasher._any_hash self (VStr k)) as [h|e]; [|done].
  rewrite bind_Ok.
  destruct (py_mod h (TagsHasher.n_dim self)) as [col|e] eqn:Hcol; [|done].
  rewrite bind_Ok.
  destruct (TagsHasher._any_hash self v) as [x|e]; [|done]. rewrite bind_Ok.
  destruct (py_mod x (TagsHasher.max_val self)) as [r|e]; [|done].
  rewrite bind_Ok. intros [= -> _]. destruct h as [h|f]; cbn in Hcol.
  - destruct (TagsHasher.n_dim self =? 0); [done|]. injection Hcol as <-.
    apply Z.mod_pos_bound. lia.
  - destruct (abs _ =? infinity)%float; [done|]. cbn in Hcol.
    by destruct (float_rem f _).
Qed.

(** An integer contribution is smaller than [max_val] in magnitude. *)
Lemma contribution_bound self kv c x :
  0 < TagsHasher.max_val self →
  TagsHasher.contribution self kv = Ok (c, Int x) →
  Z.abs x ≤ TagsHasher.max_val self - 1.
Proof.
  intros Hm. destruct kv as [k v]. unfold TagsHasher.contribution.
  destruct (TagsHasher._any_hash self (VStr k)) as [h|e]; [|done].
  rewrite bind_Ok.
  destruct (py_mod h (TagsHasher.n_dim self)) as [col|e]; [|done].
  rewrite bind_Ok.
  destruct (TagsHasher._any_hash self v) as [y|e]; [|done]. rewrite bind_Ok.
  destruct (py_mod y (TagsHasher.max_val self)) as [r|e] eqn:Hr; [|done].
  rewrite bind_Ok. destruct h as [h|fh], y as [y|fy]; cbn in Hr |- *;
    try (by destruct r).
  destruct (TagsHasher.max_val self =? 0); [done|]. injection Hr as <-.
  cbn. intros [= _ <-].
  assert (0 ≤ y mod TagsHasher.max_val self < TagsHasher.max_val self)
    by (apply Z.mod_pos_bound; lia).
  assert (Z.abs (Z.sgn h) ≤ 1) by (destruct h; cbn; lia).
  assert (Z.abs (Z.sgn y) ≤ 1) by (destruct y; cbn; lia).
  rewrite !Z.abs_mul. nia.
Qed.

Lemma add_all_length cs (t : list float) : length (add_all cs t) = length t.
Proof.
  revert t. induction cs as [|[[c|f] v] cs IH]; intros t; cbn; [done| |apply IH].
  unfold add_all in *. cbn. by rewrite IH, length_alter.
Qed.

Lemma add_all_lookup cs (t : list float) (j : nat) (x0 : float) :
  Forall (λ cv, ∃ c, cv.1 = Int c ∧ 0 ≤ c) cs →
  t !! j = Some x0 →
  add_all cs t !! j = Some (float_sum x0 (column cs j)).
Proof.
  intros Hcs. revert t x0.
  induction Hcs as [|[col v] cs (c & Hc & Hpos) _ IH]; intros t x0 Ht;
    [done|].
  cbn in Hc. subst col. unfold add_all, column, float_sum in *.
  cbn [fold_left fst snd]. rewrite filter_cons.
  change (goes_to j (Int c, v)) with (c =? Z.of_nat j).
  destruct (Z.eqb_spec c (Z.of_nat j)) as [->|Hne].
  - rewrite decide_True by done. cbn [fmap list_fmap fold_left snd].
    apply IH. rewrite Nat2Z.id. by rewrite list_lookup_alter_eq, Ht.
  - rewrite decide_False by done. apply IH.
    rewrite list_lookup_alter_ne by lia. done.
Qed.

Lemma add_tag_Ok self (a : TagsHasher.acc) kv c val :
  TagsHasher.contribution self kv = Ok (Int c, val) →
  0 ≤ c < Z.of_nat (length (TagsHasher.table a)) →
  TagsHasher.add_tag self a kv
  = Ok (TagsHasher.mkAcc (TagsHasher.idxs a ++ [(0, Int c)])
          (TagsHasher.data a ++ [val])
          (alter (λ x, x + to_float val)%float (Z.to_nat c)
             (TagsHasher.table a))).
Proof.
  intros Hkv Hc. unfold TagsHasher.add_tag. rewrite Hkv, bind_Ok.
  unfold iadd_at. rewrite bool_decide_true by lia.
  by rewrite bind_Ok, Z.mod_small by lia.
Qed.

(** A name that [float] accepts gives a float column, which the table does
    not take as an index. *)
Lemma add_tag_float_column self (a : TagsHasher.acc) kv c val :
  TagsHasher.contribution self kv = Ok (Float c, val) →
  TagsHasher.add_tag self a kv = Raise IndexError.
Proof. intros Hkv. unfold TagsHasher.add_tag. by rewrite Hkv. Qed.

Lemma for_each_add_tag self A cs (a : TagsHasher.acc) :
  contributions self A = Ok cs →
  Forall (λ cv, ∃ c, cv.1 = Int c ∧
                     0 ≤ c < Z.of_nat (length (TagsHasher.table a))) cs →
  for_each (TagsHasher.add_tag self) A a
  = Ok (TagsHasher.mkAcc (TagsHasher.idxs a ++ ((λ cv, (0, cv.1)) <$> cs))
          (TagsHasher.data a ++ cs.*2) (add_all cs (TagsHasher.table a))).
Proof.
  unfold contributions. revert cs a.
  induction A as [|kv A IH]; intros cs a; cbn.
  - intros [= <-] _. destruct a. cbn. by rewrite !app_nil_r.
  - destruct (TagsHasher.contribution self kv) as [[col val]|e] eqn:Hkv;
      [|done]. rewrite bind_Ok.
    destruct (map_each _ A) as [cs'|e] eqn:HA; [|done]. rewrite bind_Ok.
    intros [= <-] Hall. apply Forall_cons in Hall as [(c & Hc & Hr) Hall].
    cbn in Hc. subst col. rewrite (add_tag_Ok _ _ _ _ _ Hkv Hr), bind_Ok.
    rewrite (IH cs'); [|done|cbn; by rewrite length_alter].
    cbn. by rewrite <- !app_assoc.
Qed.

Lemma contributions_inv self A cs :
  contributions self A = Ok cs →
  Forall (λ cv, ∃ kv, TagsHasher.contribution self kv = Ok cv) cs.
Proof.
  intros Hcs%map_each_inv.
  induction Hcs as [|kv cv A cs Hkv _ IH]; constructor; [by exists kv|done].
Qed.

Lemma contributions_col_range self A cs :
  0 < TagsHasher.n_dim self →
  contributions self A = Ok cs →
  Forall (λ cv, ∃ c, cv.1 = Int c) cs →
  Forall (λ cv, ∃ c, cv.1 = Int c ∧ 0 ≤ c < TagsHasher.n_dim self) cs.
Proof.
  intros Hn Hcs%contributions_inv Hint.
  eapply Forall_impl; [apply Forall_and; split; [exact Hcs|exact Hint]|].
  intros [col val] [[kv Hkv] [c Hc]]. cbn in Hc. subst col. exists c.
  split; [done|]. by eapply contribution_col_range.
Qed.

Lemma encode_doc_dense self doc cs :
  0 < TagsHasher.n_dim self → TagsHasher.sparse self = false →
  tags doc ≠ [] →
  contributions self (tags doc) = Ok cs →
  Forall (λ cv, ∃ c, cv.1 = Int c) cs →
  TagsHasher.encode_doc self doc
  = Ok (mkTagDoc (tags doc)
          (Some (Dense (add_all cs
                          (replicate (Z.to_nat (TagsHasher.n_dim self))
                             0%float))))).
Proof.
  intros Hn Hsp Htags Hcs Hint. unfold TagsHasher.encode_doc, np_zeros.
  destruct (tags doc) as [|kv A] eqn:HA; [done|].
  destruct (Z.ltb_spec (TagsHasher.n_dim self) 0); [lia|]. rewrite bind_Ok.
  rewrite (for_each_add_tag self _ cs); [|done|].
  - by rewrite bind_Ok, Hsp.
  - cbn. rewrite length_replicate, Z2Nat.id by lia.
    by apply (contributions_col_range self (kv :: A)).
Qed.

Lemma add_tag_inv self (a a' : TagsHasher.acc) kv :
  TagsHasher.add_tag self a kv = Ok a' →
  ∃ c val, TagsHasher.contribution self kv = Ok (Int c, val).
Proof.
  unfold TagsHasher.add_tag.
  destruct (TagsHasher.contribution self kv) as [[[c|f] val]|e]; try done.
  by exists c, val.
Qed.

Lemma for_each_add_tag_inv self A (a a' : TagsHasher.acc) :
  for_each (TagsHasher.add_tag self) A a = Ok a' →
  ∃ cs, contributions self A = Ok cs ∧ Forall (λ cv, ∃ c, cv.1 = Int c) cs.
Proof.
  unfold contributions. revert a.
  induction A as [|kv A IH]; intros a; cbn.
  - intros _. by exists [].
  - destruct (TagsHasher.add_tag self a kv) as [a1|e] eqn:Ha1; [|done].
    rewrite bind_Ok. intros (cs & Hcs & Hint)%IH.
    destruct (add_tag_inv _ _ _ _ Ha1) as (c & val & ->).
    rewrite bind_Ok, Hcs, bind_Ok. exists ((Int c, val) :: cs).
    split; [done|]. constructor; [by exists c|done].
Qed.

(** [encode] returns on a document with tags exactly when the contribution
    of every tag computes and every name is hashed to an integer. *)
Lemma encode_doc_returns_iff self doc :
  0 < TagsHasher.n_dim self → tags doc ≠ [] →
  is_Ok (TagsHasher.encode_doc self doc) ↔
  ∃ cs, contributions self (tags doc) = Ok cs ∧
        Forall (λ cv, ∃ c, cv.1 = Int c) cs.
Proof.
  intros Hn Htags. split.
  - intros [doc' Hdoc]. revert Hdoc. unfold TagsHasher.encode_doc.
    destruct (tags doc) as [|kv A]; [done|].
    destruct (np_zeros _) as [zeros|e]; [|done]. rewrite bind_Ok.
    destruct (for_each _ _ _) as [a|e] eqn:Ha; [|done].
    intros _. by eapply for_each_add_tag_inv.
  - intros (cs & Hcs & Hint). unfold TagsHasher.encode_doc, np_zeros.
    destruct (tags doc) as [|kv A] eqn:HA; [done|].
    destruct (Z.ltb_spec (TagsHasher.n_dim self) 0); [lia|]. rewrite bind_Ok.
    rewrite (for_each_add_tag self _ cs); [|done|].
    + rewrite bind_Ok. destruct (TagsHasher.sparse self); by eexists.
    + cbn. rewrite length_replicate, Z2Nat.id by lia.
      by apply (contributions_col_range self (kv :: A)).
Qed.

(** With [sparse] set, the same contributions are handed to [csr_matrix] in
    coordinate form. *)
Lemma encode_doc_sparse self doc cs :
  0 < TagsHasher.n_dim self → TagsHasher.sparse self = true →
  tags doc ≠ [] →
  contributions self (tags doc) = Ok cs →
  Forall (λ cv, ∃ c, cv.1 = Int c) cs →
  TagsHasher.encode_doc self doc
  = Ok (mkTagDoc (tags doc)
          (Some (Csr cs.*2 ((λ cv, (0, cv.1)) <$> cs)
                   (1, TagsHasher.n_dim self)))).
Proof.
  intros Hn Hsp Htags Hcs Hint. unfold TagsHasher.encode_doc, np_zeros.
  destruct (tags doc) as [|kv A] eqn:HA; [done|].
  destruct (Z.ltb_spec (TagsHasher.n_dim self) 0); [lia|]. rewrite bind_Ok.
  rewrite (for_each_add_tag self _ cs); [|done|].
  - by rewrite bind_Ok, Hsp.
  - cbn. rewrite length_replicate, Z2Nat.id by lia.
    by apply (contributions_col_range self (kv :: A)).
Qed.

Lemma column_integral cs (j : nat) :
  Forall integral cs → Forall (λ x : number, ∃ z, x = Int z) (column cs j).
Proof.
  intros Hcs. unfold column. apply Forall_fmap, Forall_forall.
  intros cv [_ Hcv]%list_elem_of_filter.
  rewrite Forall_forall in Hcs. destruct (Hcs _ Hcv) as (c & z & ->).
  by exists z.
Qed.

Lemma column_count_le cs (j : nat) : (column_count cs j ≤ length cs)%nat.
Proof.
  unfold column_count, column. rewrite length_fmap. apply length_filter.
Qed.

Lemma column_abs_bound self cs (j : nat) :
  0 < TagsHasher.max_val self →
  Forall (λ cv, ∃ kv, TagsHasher.contribution self kv = Ok cv) cs →
  foldr Z.add 0 (Z.abs ∘ int_value <$> column cs j)
  ≤ (TagsHasher.max_val self - 1) * Z.of_nat (column_count cs j).
Proof.
  intros Hm Hcs. unfold column_count, column.
  induction Hcs as [|[col val] cs [kv Hkv] _ IH]; [cbn; lia|].
  rewrite filter_cons. destruct (decide _); [|done]. cbn in IH |- *.
  assert (Z.abs (int_value val) ≤ TagsHasher.max_val self - 1).
  { destruct val as [x|f]; cbn; [|lia]. by eapply contribution_bound. }
  lia.
Qed.

Lemma abs_total_le (vs : list number) :
  Z.abs (foldr Z.add 0 (int_value <$> vs))
  ≤ foldr Z.add 0 (Z.abs ∘ int_value <$> vs).
Proof. induction vs as [|v vs IH]; cbn; lia. Qed.

Lemma total_perm (vs vs' : list number) :
  vs ≡ₚ vs' →
  foldr Z.add 0 (int_value <$> vs) = foldr Z.add 0 (int_value <$> vs').
Proof. induction 1; cbn; lia. Qed.

Lemma column_perm cs cs' (j : nat) : cs ≡ₚ cs' → column cs j ≡ₚ column cs' j.
Proof. intros Hp. unfold column. by rewrite Hp. Qed.

(** Column [j] of the table, for integer contributions that add up below
    [2 ^ 53]: the float of their exact sum. *)
Lemma column_exact self cs (j : nat) :
  0 < TagsHasher.max_val self →
  Forall (λ cv, ∃ kv, TagsHasher.contribution self kv = Ok cv) cs →
  Forall integral cs →
  (TagsHasher.max_val self - 1) * Z.of_nat (length cs) < 2 ^ 53 →
  float_sum 0%float (column cs j) = float_of_Z (column_total cs j).
Proof.
  intros Hm Hcs Hint Hsmall.
  change 0%float with (float_of_Z 0). rewrite float_sum_exact.
  - done.
  - by apply column_integral.
  - assert (Hb := column_abs_bound self cs j Hm Hcs).
    assert (Hc := column_count_le cs j). cbn. nia.
Qed.

(** The dense table: [n_dim] components, each the float sum of its column. *)
Lemma encode_dense_columns self doc cs :
  0 < TagsHasher.n_dim self → TagsHasher.sparse self = false →
  tags doc ≠ [] →
  contributions self (tags doc) = Ok cs →
  Forall (λ cv, ∃ c, cv.1 = Int c) cs →
  ∃ t,
    TagsHasher.encode_doc self doc
    = Ok (mkTagDoc (tags doc) (Some (Dense t))) ∧
    length t = Z.to_nat (TagsHasher.n_dim self) ∧
    ∀ j, (j < length t)%nat → t !! j = Some (float_sum 0%float (column cs j)).
Proof.
  intros Hn Hsp Htags Hcs Hint. eexists. split_and!.
  - by apply encode_doc_dense.
  - by rewrite add_all_length, length_replicate.
  - intros j Hj. rewrite add_all_length, length_replicate in Hj.
    apply add_all_lookup; [|by apply lookup_replicate_2].
    eapply Forall_impl; [by eapply contributions_col_range|].
    intros cv (c & ? & ?). exists c. split; [done|lia].
Qed.


(** C2, as the code has it.  Two tag mappings with the same pairs in a
    different order are encoded alike up to the order of the float
    additions: [encode] returns on both, the contributions of the one are a
    permutation of those of the other, column by column, and each component
    is the float sum of its column in iteration order.  When the
    contributions are integers (no value is parsed by [float]) and small
    enough to add exactly, the two tables are identical. *)
Theorem encode_reordered_tags self (A A' : list (string * value))
    (e e' : option embedding) cs :
  0 < TagsHasher.n_dim self → 0 < TagsHasher.max_val self →
  TagsHasher.sparse self = false → A ≠ [] → A ≡ₚ A' →
  contributions self A = Ok cs →
  Forall (λ cv, ∃ c, cv.1 = Int c) cs →
  ∃ cs' t t',
    contributions self A' = Ok cs' ∧ cs ≡ₚ cs' ∧
    TagsHasher.encode_doc self (mkTagDoc A e)
    = Ok (mkTagDoc A (Some (Dense t))) ∧
    TagsHasher.encode_doc self (mkTagDoc A' e')
    = Ok (mkTagDoc A' (Some (Dense t'))) ∧
    length t' = length t ∧
    (∀ j, (j < length t)%nat →
       column cs j ≡ₚ column cs' j ∧
       t !! j = Some (float_sum 0%float (column cs j)) ∧
       t' !! j = Some (float_sum 0%float (column cs' j))) ∧
    (Forall integral cs →
     (TagsHasher.max_val self - 1) * Z.of_nat (length cs) < 2 ^ 53 →
     t' = t).
Proof.
  intros Hn Hm Hsp HA Hperm Hcs Hint.
  destruct (map_each_perm _ _ _ _ Hperm Hcs) as (cs' & Hcs' & Hpcs).
  assert (Hint' : Forall (λ cv, ∃ c, cv.1 = Int c) cs') by by rewrite <- Hpcs.
  assert (HA' : A' ≠ []).
  { intros ->. by apply Permutation_nil_r in Hperm. }
  destruct (encode_dense_columns self (mkTagDoc A e) cs)
    as (t & Ht & Hlen & Hcols); try done.
  destruct (encode_dense_columns self (mkTagDoc A' e') cs')
    as (t' & Ht' & Hlen' & Hcols'); try done.
  exists cs', t, t'. split_and!; try done.
  - by rewrite Hlen, Hlen'.
  - intros j Hj. split_and!.
    + by apply column_perm.
    + by apply Hcols.
    + apply Hcols'. by rewrite Hlen', <- Hlen.
  - intros Hintegral Hsmall. apply list_eq. intros j.
    destruct (decide (j < length t)%nat) as [Hj|Hj].
    + rewrite (Hcols j Hj), (Hcols' j) by (by rewrite Hlen', <- Hlen).
      assert (Hinv := contributions_inv _ _ _ Hcs).
      assert (Hinv' := contributions_inv _ _ _ Hcs').
      rewrite (column_exact self cs), (column_exact self cs'); try done.
      * unfold column_total.
        by rewrite (total_perm _ _ (column_perm _ _ j Hpcs)).
      * by rewrite <- Hpcs.
      * by rewrite <- Hpcs.
    + rewrite !lookup_ge_None_2; [done|lia|lia].
Qed.

End hasher_facts.

(** *** The hasher of the notebook on concrete tags *)

Lemma init_default : TagsHasher.__init__ 256 65536 false = Ok th.
Proof. reflexivity. Qed.



Lemma encode_reordered_tags_witness :
  ∃ t, TagsHasher.encode_doc th (mkTagDoc film None)
       = Ok (mkTagDoc film (Some (Dense t))) ∧
       TagsHasher.encode_doc th (mkTagDoc (rev film) None)
       = Ok (mkTagDoc (rev film) (Some (Dense t))).
Proof.
  destruct (encode_reordered_tags th film (rev film) None None
              [(Int 16, Int 25614); (Int 242, Int 1987)])
    as (cs' & t & t' & _ & _ & Ht & Ht' & _ & _ & Heq).
  - cbn. lia.
  - cbn. lia.
  - reflexivity.
  - discriminate.
  - apply Permutation_swap.
  - vm_compute. reflexivity.
  - repeat constructor; eexists; reflexivity.
  - exists t. split; [exact Ht|]. rewrite <- Heq; [exact Ht'| |cbn; lia].
    repeat constructor; eexists _, _; reflexivity.
Defined.

(** C2 fails when three float contributions meet in one column.  The titles
    "5", "261" and "517" are read as integers and all go to column 5; the
    values "0.1", "0.2" and "0.3" are read as floats.  In the one order
    component 5 is (0.1 + 0.2) + 0.3 = 0.6000000000000001, in the reverse
    order (0.3 + 0.2) + 0.1 = 0.6. *)
Lemma encode_depends_on_tag_order :
  decimals ≡ₚ rev decimals ∧
  ∃ t t',
    TagsHasher.encode_doc th (mkTagDoc decimals None)
    = Ok (mkTagDoc decimals (Some (Dense t))) ∧
    TagsHasher.encode_doc th (mkTagDoc (rev decimals) None)
    = Ok (mkTagDoc (rev decimals) (Some (Dense t'))) ∧
    t !! 5%nat = Some 0.6000000000000001%float ∧
    t' !! 5%nat = Some 0.6%float ∧
    t ≠ t'.
Proof.
  split; [apply Permutation_rev|]. eexists _, _.
  split_and!; try (vm_compute; reflexivity).
  intros Heq.
  apply (f_equal (λ l, match l !! 5%nat with
                       | Some x => (x =? 0.6)%float
                       | None => false
                       end)) in Heq.
  vm_compute in Heq. discriminate.
Qed.

(** C9 fails: the constructor returns a hasher for a zero and for a negative
    [n_dim] or [max_val], and a hasher with a negative [max_val] even
    encodes. *)
Lemma init_accepts_nonpositive :
  TagsHasher.__init__ 0 0 false = Ok (TagsHasher.mk 0 0 md5 false) ∧
  TagsHasher.__init__ (-256) (-65536) false
  = Ok (TagsHasher.mk (-256) (-65536) md5 false) ∧
  is_Ok (TagsHasher.encode_doc (TagsHasher.mk 256 (-65536) md5 false)
           (mkTagDoc film None)).
Proof. split_and!; [done|done|]. eexists. vm_compute. reflexivity. Qed.

Lemma init_accepts_any_configuration_witness :
  ∃ e, TagsHasher.encode_doc (TagsHasher.mk 0 65536 md5 false)
         (mkTagDoc film None) = Raise e.
Proof.
  apply (init_accepts_any_configuration 0 65536 false).
  - discriminate.
  - left. lia.
Defined.


(** * Further properties *)

(** ** SimpleRanker: the order of the parents *)

Lemma SFltb_below_trans (x y z : spec_float) :
  SFltb x y = true → SFltb z y = false → z ≠ S754_nan → SFltb x z = true.
Proof.
  unfold SFltb, SFcompare.
  destruct x as [sx|sx| |sx mx ex], y as [sy|sy| |sy my ey],
           z as [sz|sz| |sz mz ez]; try done;
    destruct sx; try done; destruct sy; try done; destruct sz; try done;
    intros Hxy Hyz _; cases_compare; subst; cbn in *; try done; try lia.
Qed.

Lemma is_nan_false (x : float) : is_nan x = false → Prim2SF x ≠ S754_nan.
Proof.
  unfold is_nan. rewrite FloatAxioms.eqb_spec. intros Hx Hn.
  by rewrite Hn in Hx.
Qed.

(** On numbers, what is below [y] is below whatever [y] is not above. *)
Lemma ltb_below_trans (x y z : float) :
  (x <? y)%float = true → (z <? y)%float = false → is_nan z = false →
  (x <? z)%float = true.
Proof.
  rewrite !ltb_spec. intros Hxy Hzy Hz%is_nan_false.
  by eapply SFltb_below_trans.
Qed.

Lemma StronglySorted_weaken {A} (R R' : relation A) (l : list A) :
  (∀ a b, a ∈ l → b ∈ l → R a b → R' a b) →
  StronglySorted R l → StronglySorted R' l.
Proof.
  intros Himp Hl. induction Hl as [|x l Hl IH Hx]; constructor.
  - apply IH. intros a b Ha Hb. apply Himp; by apply elem_of_cons; right.
  - apply Forall_forall. intros y Hy. rewrite Forall_forall in Hx.
    apply Himp; [by left|by right|by apply Hx].
Qed.

Lemma StronglySorted_fmap_inv {A B} (f : A → B) (R : relation B) (l : list A) :
  StronglySorted R (f <$> l) → StronglySorted (λ x y, R (f x) (f y)) l.
Proof.
  induction l as [|x l IH]; [constructor|]. rewrite fmap_cons.
  intros [Hx Hl]%StronglySorted_cons. constructor; [by apply IH|].
  by rewrite Forall_fmap in Hx.
Qed.

(** The sort is stable: items whose keys are not ordered keep the order
    they come in. *)
Lemma insert_key_stable {A} (S : relation (float * A)) (kx : float * A)
    (l : list (float * A)) :
  Forall (λ y, is_nan y.1 = false) l →
  StronglySorted (keyed_before S) l →
  Forall (λ y, S y kx) l →
  StronglySorted (keyed_before S) (insert_key kx l).
Proof.
  induction l as [|ky l IH]; cbn; intros Hnan Hl HS.
  - by repeat constructor.
  - apply Forall_cons in Hnan as [_ Hnan].
    apply StronglySorted_cons in Hl as [Hky Hl].
    apply Forall_cons in HS as [HSky HS].
    destruct (kx.1 <? ky.1)%float eqn:Hlt.
    + apply StronglySorted_cons. split; [|by apply StronglySorted_cons].
      constructor; [by left|].
      rewrite Forall_forall in Hky, Hnan. apply Forall_forall. intros z Hz.
      left. destruct (Hky z Hz) as [Hyz|[Hzy _]].
      * by eapply ltb_trans.
      * eapply ltb_below_trans; [exact Hlt|exact Hzy|by apply Hnan].
    + apply StronglySorted_cons. split; [|by apply IH].
      rewrite insert_key_perm. constructor; [|done]. by right.
Qed.

Lemma sort_keyed_stable {A} (S : relation (float * A)) (l : list (float * A)) :
  Forall (λ y, is_nan y.1 = false) l →
  StronglySorted S l →
  StronglySorted (keyed_before S) (sort_keyed l).
Proof.
  unfold sort_keyed. intros Hnan Hl.
  assert (Hgen : ∀ acc,
    Forall (λ y, is_nan y.1 = false) acc →
    StronglySorted (keyed_before S) acc →
    Forall (λ y, Forall (S y) l) acc →
    StronglySorted (keyed_before S)
      (fold_left (λ acc kx, insert_key kx acc) l acc)).
  { induction Hl as [|kx l Hl IH Hkx]; intros acc Hacc Hs Hb; cbn; [done|].
    apply Forall_cons in Hnan as [Hn Hnan]. apply IH; [done| | |].
    - rewrite insert_key_perm. by constructor.
    - apply insert_key_stable; [done|done|].
      eapply Forall_impl; [exact Hb|]. by intros y [? _]%Forall_cons.
    - rewrite insert_key_perm. constructor; [done|].
      eapply Forall_impl; [exact Hb|]. by intros y [_ ?]%Forall_cons. }
  apply Hgen; constructor.
Qed.

Lemma sorted_stable {A} (key : A → result float) (S : relation A)
    (l out : list A) :
  Py.sorted key l = Ok out →
  Forall (λ a, ∃ x, key a = Ok x ∧ is_nan x = false) l →
  StronglySorted S l →
  StronglySorted
    (λ a b, ∃ x y, key a = Ok x ∧ key b = Ok y ∧
       ((x <? y)%float = true ∨ ((y <? x)%float = false ∧ S a b))) out.
Proof.
  unfold Py.sorted. destruct (map_each key l) as [keys|e] eqn:Hkeys; [|done].
  rewrite bind_Ok. intros [= <-] Hnan Hl. apply map_each_inv in Hkeys.
  assert (Hlen : length keys = length l)
    by by rewrite (Forall2_length _ _ _ Hkeys).
  assert (Hz : Forall (λ p, key p.2 = Ok p.1 ∧ is_nan p.1 = false)
                 (zip keys l)).
  { clear Hl Hlen.
    induction Hkeys as [|a x l keys Ha _ IH]; cbn; [constructor|].
    apply Forall_cons in Hnan as [(x' & Hx' & Hn) Hnan].
    constructor; [|by apply IH]. cbn. split; [done|]. congruence. }
  assert (Hs : StronglySorted (λ a b : float * A, S a.2 b.2) (zip keys l)).
  { apply StronglySorted_fmap_inv. rewrite snd_zip; [done|lia]. }
  apply (sort_keyed_stable (λ a b : float * A, S a.2 b.2)) in Hs.
  2:{ eapply Forall_impl; [exact Hz|]. by intros p [_ ?]. }
  rewrite <- (sort_keyed_perm (zip keys l)) in Hz.
  eapply StronglySorted_fmap; [|eapply StronglySorted_weaken; [|exact Hs]].
  - intros a b Hab. exact Hab.
  - rewrite Forall_forall in Hz. intros a b [Ha _]%Hz [Hb _]%Hz Hab.
    exists a.1, b.1. split_and!; try done.
Qed.

Lemma seen_before_snoc (p p' q : string) (l : list string) :
  seen_before p p' l → seen_before p p' (l ++ [q]).
Proof.
  intros (Hne & l1 & l2 & -> & Hp'). split; [done|].
  exists l1, (l2 ++ [q]). by rewrite <- app_assoc.
Qed.

Lemma grouped_snoc (ps : list (string * float)) (px : string * float) d :
  grouped (ps ++ [px]) d = dd_append (grouped ps d) px.1 px.2.
Proof. unfold grouped. by rewrite fold_left_app. Qed.

(** The dictionary holds the parents in the order they are first seen. *)
Lemma grouped_keys_order (ps : list (string * float)) :
  StronglySorted (λ p p', seen_before p p' ps.*1) (grouped ps []).*1.
Proof.
  induction ps as [|[p x] ps IH] using rev_ind; [constructor|].
  rewrite grouped_snoc, dd_append_keys, fmap_app. cbn [fst snd fmap list_fmap].
  destruct (grouped_keys ps []) as [_ Hin]; [constructor|].
  assert (Hold : StronglySorted (λ a b, seen_before a b (ps.*1 ++ [p]))
                   (grouped ps []).*1).
  { eapply StronglySorted_weaken; [|exact IH].
    intros a b _ _. apply seen_before_snoc. }
  destruct (decide (p ∈ (grouped ps []).*1)) as [Hp|Hp]; [done|].
  apply StronglySorted_app_2; [|done|repeat constructor].
  intros a b Ha ->%list_elem_of_singleton. split; [by intros ->|].
  apply Hin in Ha as [[]%elem_of_nil|Ha].
  apply list_elem_of_split in Ha as (l1 & l2 & Hl).
  exists l1, (l2 ++ [p]). rewrite Hl, <- app_assoc. split; [done|].
  intros Hb. apply Hp, Hin. right. rewrite Hl. apply elem_of_app. by left.
Qed.

Lemma rank_doc_order (self : SimpleRanker.t) (q : QueryDoc) :
  Forall (scored (SimpleRanker.metric self)) (matches q) →
  ∃ ranked,
    SimpleRanker.rank_doc self q = Ok (mkQueryDoc (root q) ranked) ∧
    StronglySorted
      (ranked_before (SimpleRanker.metric self)
         (Document.parent_id <$> matches q)) ranked.
Proof.
  intros Hq.
  assert (Hq' : Forall (λ m, is_Some (Document.scores m !!
                                        SimpleRanker.metric self)) (matches q)).
  { eapply Forall_impl; [exact Hq|]. intros m (x & -> & _). by eexists. }
  destruct (rank_doc_spec self q Hq')
    as (ps & out & ranked & Hps & Hout & Hsorted & _ & Hrank).
  destruct (chunk_scores_Ok _ _ Hq') as (ps' & Hps' & Hparents).
  rewrite Hps in Hps'. injection Hps' as <-.
  destruct (aggregate_Ok self (grouped ps [])) as (out' & Hout' & Hid & _).
  { apply grouped_nonempty. constructor. }
  rewrite Hout in Hout'. injection Hout' as <-.
  exists ranked. split; [done|]. rewrite <- Hparents.
  apply (sorted_stable _ (λ a b, seen_before (Document.id a) (Document.id b)
                                   ps.*1) out); [done| |].
  - assert (Hnan : Forall (λ px, is_nan px.2 = false) ps).
    { apply chunk_scores_inv in Hps. clear -Hps Hq.
      induction Hps as [|m px ms ps [_ Hx] _ IH]; [constructor|].
      apply Forall_cons in Hq as [(x & Hx' & Hn) Hq].
      constructor; [|by apply IH]. congruence. }
    apply aggregate_inv in Hout.
    destruct (grouped_keys ps []) as [Hnd _]; [constructor|].
    apply Forall_forall. intros doc Hdoc.
    apply (list_elem_of_lookup_1 out) in Hdoc as [i Hi].
    destruct (Forall2_lookup_r _ _ _ _ _ Hout Hi)
      as ([p xs] & Hpx & x & Hx & ->).
    exists x. split; [apply score_new|]. cbn in *.
    apply min_least in Hx as [Hx _].
    rewrite <- (dd_get_elem (grouped ps []) p xs) in Hx;
      [|done|by eapply list_elem_of_lookup_2].
    rewrite dd_get_grouped in Hx. cbn in Hx. unfold scores_of in Hx.
    apply list_elem_of_fmap in Hx as (px & -> & [_ Hpx']%list_elem_of_filter).
    rewrite Forall_forall in Hnan. by apply Hnan.
  - apply (StronglySorted_fmap_inv Document.id
             (λ p p', seen_before p p' ps.*1)).
    rewrite Hid. apply grouped_keys_order.
Qed.

(** [rank] runs the body on each query in turn. *)
Lemma rank_each (self : SimpleRanker.t) (P : QueryDoc → QueryDoc → Prop)
    (docs : list QueryDoc) :
  Forall (λ q, ∃ q', SimpleRanker.rank_doc self q = Ok q' ∧ P q q') docs →
  ∃ docs', SimpleRanker.rank self (Some docs) = Ok (Some docs') ∧
           Forall2 P docs docs'.
Proof.
  unfold SimpleRanker.rank.
  induction 1 as [|q docs (q' & Hq & HP) _ (docs' & Hdocs & IH)]; cbn.
  - by exists [].
  - destruct (map_each _ docs) as [ds|e]; [|done]. injection Hdocs as <-.
    rewrite Hq. cbn. exists (q' :: ds). split; [done|by constructor].
Qed.

(** X1. When every chunk match carries a score that is a number, [rank]
    returns and leaves each query with its parents in ascending order of
    score; parents whose scores are equal stay in the order in which their
    first chunks come in the old match list ([parents_scores] keeps insertion
    order and [sorted] is stable). *)
Theorem rank_orders_by_score_then_first_chunk (self : SimpleRanker.t)
    (docs : list QueryDoc) :
  Forall (λ q, Forall (scored (SimpleRanker.metric self)) (matches q)) docs →
  ∃ docs',
    SimpleRanker.rank self (Some docs) = Ok (Some docs') ∧
    Forall2
      (λ q q',
         root q' = root q ∧
         StronglySorted
           (ranked_before (SimpleRanker.metric self)
              (Document.parent_id <$> matches q)) (matches q'))
      docs docs'.
Proof.
  intros Hdocs. apply rank_each.
  eapply Forall_impl; [exact Hdocs|]. intros q Hq.
  destruct (rank_doc_order self q Hq) as (ranked & Hrank & Hsorted).
  by eexists.
Qed.

Lemma rank_orders_by_score_then_first_chunk_witness :
  ∃ docs',
    SimpleRanker.rank (SimpleRanker.mk "cosine")
      (Some [mkQueryDoc (Document.new "q" ∅)
               [chunk "chunk1" "parentB" 0.2; chunk "chunk2" "parentA" 0.2;
                chunk "chunk3" "parentC" 0.1; chunk "chunk4" "parentA" 0.3]])
    = Ok (Some docs') ∧
    Forall2
      (λ q q',
         root q' = root q ∧
         StronglySorted
           (ranked_before "cosine" (Document.parent_id <$> matches q))
           (matches q'))
      [mkQueryDoc (Document.new "q" ∅)
         [chunk "chunk1" "parentB" 0.2; chunk "chunk2" "parentA" 0.2;
          chunk "chunk3" "parentC" 0.1; chunk "chunk4" "parentA" 0.3]]
      docs'.
Proof.
  apply (rank_orders_by_score_then_first_chunk (SimpleRanker.mk "cosine")
           [mkQueryDoc (Document.new "q" ∅)
              [chunk "chunk1" "parentB" 0.2; chunk "chunk2" "parentA" 0.2;
               chunk "chunk3" "parentC" 0.1; chunk "chunk4" "parentA" 0.3]]).
  repeat constructor; eexists; split; reflexivity.
Defined.

(** ** SimpleRanker: the score and the number of the parents *)

Lemma dd_append_length {V} (d : list (string * list V)) (k : string) (x : V) :
  (length d ≤ length (dd_append d k x) ≤ S (length d))%nat.
Proof.
  induction d as [|[k' xs] d IH]; cbn; [lia|].
  destruct (decide (k' = k)); cbn; lia.
Qed.

Lemma grouped_length (ps : list (string * float)) d :
  (length d ≤ length (grouped ps d) ≤ length d + length ps)%nat.
Proof.
  revert d. induction ps as [|[p x] ps IH]; intros d; [cbn; lia|].
  change (grouped ((p, x) :: ps) d) with (grouped ps (dd_append d p x)).
  specialize (IH (dd_append d p x)).
  pose proof (dd_append_length d p x). cbn [length]. lia.
Qed.

Lemma grouped_nil_iff (ps : list (string * float)) :
  grouped ps [] = [] ↔ ps = [].
Proof.
  split; [|by intros ->]. destruct ps as [|[p x] ps]; [done|].
  change (grouped ((p, x) :: ps) []) with (grouped ps (dd_append [] p x)).
  intros Hnil. pose proof (grouped_length ps (dd_append [] p x)) as Hl.
  rewrite Hnil in Hl. cbn in Hl. lia.
Qed.

(** X2. When every chunk match carries a score, [rank] returns, and for each
    query every new match holds exactly one score, which is a least one among
    the scores of the chunks of that parent (it is one of them and none of
    them is below it).  There are never more parents than there were chunks,
    and a query without matches is left without matches. *)
Theorem rank_scores_parent_by_least_chunk (self : SimpleRanker.t)
    (docs : list QueryDoc) :
  Forall (λ q, Forall (λ m, is_Some (Document.scores m !!
                                       SimpleRanker.metric self))
                 (matches q)) docs →
  ∃ docs',
    SimpleRanker.rank self (Some docs) = Ok (Some docs') ∧
    Forall2
      (λ q q',
         ∃ ps,
           chunk_scores (SimpleRanker.metric self) (matches q) = Ok ps ∧
           Forall (λ d, ∃ x,
                     Document.scores d = {[ SimpleRanker.metric self := x ]} ∧
                     least x (scores_of (Document.id d) ps)) (matches q') ∧
           (length (matches q') ≤ length (matches q))%nat ∧
           (matches q' = [] ↔ matches q = []))
      docs docs'.
Proof.
  intros Hdocs. apply rank_each.
  eapply Forall_impl; [exact Hdocs|]. intros q Hq.
  destruct (rank_doc_spec self q Hq)
    as (ps & out & ranked & Hps & Hout & _ & Hperm & Hrank).
  eexists. split; [exact Hrank|]. exists ps. cbn [matches].
  assert (Hlen : length out = length (grouped ps [])).
  { apply aggregate_inv in Hout. by rewrite (Forall2_length _ _ _ Hout). }
  assert (Hms : length ps = length (matches q)).
  { apply chunk_scores_inv in Hps. by rewrite (Forall2_length _ _ _ Hps). }
  split_and!; [done| | |].
  - rewrite Hperm. apply aggregate_inv in Hout.
    destruct (grouped_keys ps []) as [Hnd _]; [constructor|].
    apply Forall_forall. intros doc Hdoc.
    apply (list_elem_of_lookup_1 out) in Hdoc as [i Hi].
    destruct (Forall2_lookup_r _ _ _ _ _ Hout Hi)
      as ([p xs] & Hpx & x & Hx & ->).
    exists x. split; [done|]. cbn in *.
    apply min_least in Hx.
    rewrite <- (dd_get_elem (grouped ps []) p xs) in Hx;
      [|done|by eapply list_elem_of_lookup_2].
    by rewrite dd_get_grouped in Hx.
  - rewrite Hperm, Hlen, <- Hms.
    pose proof (grouped_length ps []) as Hl. cbn in Hl. lia.
  - rewrite <- (length_zero_iff_nil ranked), Hperm, Hlen, length_zero_iff_nil.
    rewrite grouped_nil_iff, <- (length_zero_iff_nil ps), Hms.
    apply length_zero_iff_nil.
Qed.

Lemma rank_scores_parent_by_least_chunk_witness :
  ∃ docs',
    SimpleRanker.rank (SimpleRanker.mk "cosine")
      (Some [mkQueryDoc (Document.new "q" ∅)
               [chunk "chunk1" "parentA" 0.1; chunk "chunk2" "parentA" 0.05;
                chunk "chunk3" "parentB" 0.2];
             mkQueryDoc (Document.new "r" ∅) []])
    = Ok (Some docs') ∧
    Forall2
      (λ q q',
         ∃ ps,
           chunk_scores "cosine" (matches q) = Ok ps ∧
           Forall (λ d, ∃ x,
                     Document.scores d = {[ "cosine" := x ]} ∧
                     least x (scores_of (Document.id d) ps)) (matches q') ∧
           (length (matches q') ≤ length (matches q))%nat ∧
           (matches q' = [] ↔ matches q = []))
      [mkQueryDoc (Document.new "q" ∅)
         [chunk "chunk1" "parentA" 0.1; chunk "chunk2" "parentA" 0.05;
          chunk "chunk3" "parentB" 0.2];
       mkQueryDoc (Document.new "r" ∅) []]
      docs'.
Proof.
  apply (rank_scores_parent_by_least_chunk (SimpleRanker.mk "cosine")
           [mkQueryDoc (Document.new "q" ∅)
              [chunk "chunk1" "parentA" 0.1; chunk "chunk2" "parentA" 0.05;
               chunk "chunk3" "parentB" 0.2];
            mkQueryDoc (Document.new "r" ∅) []]).
  repeat constructor; eexists; reflexivity.
Defined.

(** ** LMDBStorage: what [index] leaves in the database *)

Lemma index_snoc (tx : gmap string Document.t) (ds : list Document.t)
    (d : Document.t) :
  LMDBStorage.index tx (Some (ds ++ [d]))
  = <[Document.id d := d]> (LMDBStorage.index tx (Some ds)).
Proof. unfold LMDBStorage.index. by rewrite fold_left_app. Qed.

Lemma index_lookup_absent (tx : gmap string Document.t)
    (docs : list Document.t) (k : string) :
  k ∉ Document.id <$> docs → LMDBStorage.index tx (Some docs) !! k = tx !! k.
Proof.
  induction docs as [|d docs IH] using rev_ind; [done|].
  rewrite fmap_app, not_elem_of_app. intros [Hk Hd].
  rewrite index_snoc, lookup_insert_ne; [by apply IH|].
  intros Heq. apply Hd. rewrite <- Heq. cbn. by left.
Qed.

Lemma index_lookup_last (tx : gmap string Document.t)
    (ds1 ds2 : list Document.t) (d : Document.t) :
  Document.id d ∉ Document.id <$> ds2 →
  LMDBStorage.index tx (Some (ds1 ++ d :: ds2)) !! Document.id d = Some d.
Proof.
  induction ds2 as [|d2 ds2 IH] using rev_ind; intros Hd.
  - by rewrite index_snoc, lookup_insert_eq.
  - rewrite fmap_app, not_elem_of_app in Hd. destruct Hd as [Hd Hd2].
    change (ds1 ++ d :: ds2 ++ [d2]) with (ds1 ++ (d :: ds2) ++ [d2]).
    rewrite app_assoc, index_snoc, lookup_insert_ne.
    + by apply IH.
    + intros Heq. apply Hd2. cbn. rewrite Heq. by left.
Qed.

Lemma index_lookup_stored (tx : gmap string Document.t)
    (docs : list Document.t) (k : string) :
  k ∈ Document.id <$> docs →
  ∃ d, LMDBStorage.index tx (Some docs) !! k = Some d ∧
       d ∈ docs ∧ Document.id d = k.
Proof.
  induction docs as [|d docs IH] using rev_ind; [by intros ?%elem_of_nil|].
  rewrite fmap_app, elem_of_app, index_snoc. intros Hk.
  destruct (decide (Document.id d = k)) as [<-|Hne].
  - exists d. rewrite lookup_insert_eq. split_and!; [done| |done].
    apply elem_of_app. right. by left.
  - destruct Hk as [Hk|Hk].
    + destruct (IH Hk) as (d' & Hd' & Hin & Hid). exists d'.
      rewrite lookup_insert_ne by done. split_and!; [done| |done].
      apply elem_of_app. by left.
    + cbn in Hk. apply list_elem_of_singleton in Hk. congruence.
Qed.

Lemma last_with_id (docs : list Document.t) (k : string) :
  k ∈ Document.id <$> docs →
  ∃ ds1 d ds2, docs = ds1 ++ d :: ds2 ∧ Document.id d = k ∧
               k ∉ Document.id <$> ds2.
Proof.
  induction docs as [|d docs IH] using rev_ind; [by intros ?%elem_of_nil|].
  rewrite fmap_app, elem_of_app. intros Hk.
  destruct (decide (Document.id d = k)) as [Hd|Hd].
  - exists docs, d, []. split_and!; [done|done|apply not_elem_of_nil].
  - destruct Hk as [Hk|Hk].
    + destruct (IH Hk) as (ds1 & d' & ds2 & -> & Hid & Hnin).
      exists ds1, d', (ds2 ++ [d]). rewrite <- app_assoc. split_and!; try done.
      rewrite fmap_app, not_elem_of_app. split; [done|].
      cbn. intros ?%list_elem_of_singleton. congruence.
    + cbn in Hk. apply list_elem_of_singleton in Hk. congruence.
Qed.

(** X3. After [index(docs)] the database answers the id of an indexed
    document with that document; when several of the documents share an id
    the last one wins.  The entries under all other ids are as they were,
    and the ids in the database are those that were there and those of the
    documents.  (Ids are keys LMDB accepts; the size of the map is not
    modelled.) *)
Theorem index_last_write_wins (tx : gmap string Document.t)
    (docs : list Document.t) :
  Forall (λ d, valid_key (Document.id d)) docs →
  (∀ ds1 d ds2, docs = ds1 ++ d :: ds2 →
     Document.id d ∉ Document.id <$> ds2 →
     LMDBStorage.index tx (Some docs) !! Document.id d = Some d) ∧
  (∀ k, k ∉ Document.id <$> docs →
     LMDBStorage.index tx (Some docs) !! k = tx !! k) ∧
  (∀ k, is_Some (LMDBStorage.index tx (Some docs) !! k) ↔
        is_Some (tx !! k) ∨ k ∈ Document.id <$> docs).
Proof.
  intros _. split_and!.
  - intros ds1 d ds2 -> Hd. by apply index_lookup_last.
  - apply index_lookup_absent.
  - intros k. destruct (decide (k ∈ Document.id <$> docs)) as [Hk|Hk].
    + destruct (index_lookup_stored tx docs k Hk) as (d & -> & _).
      split; [by right|by eexists].
    + rewrite index_lookup_absent by done. tauto.
Qed.

Lemma index_last_write_wins_witness :
  (∀ ds1 d ds2, [stored_parentB; scored_parentB] = ds1 ++ d :: ds2 →
     Document.id d ∉ Document.id <$> ds2 →
     LMDBStorage.index ∅ (Some [stored_parentB; scored_parentB])
       !! Document.id d = Some d) ∧
  (∀ k, k ∉ Document.id <$> [stored_parentB; scored_parentB] →
     LMDBStorage.index ∅ (Some [stored_parentB; scored_parentB]) !! k
     = (∅ : gmap string Document.t) !! k) ∧
  (∀ k, is_Some (LMDBStorage.index ∅ (Some [stored_parentB; scored_parentB])
                   !! k) ↔
        is_Some ((∅ : gmap string Document.t) !! k) ∨
        k ∈ Document.id <$> [stored_parentB; scored_parentB]).
Proof.
  apply (index_last_write_wins ∅ [stored_parentB; scored_parentB]).
  repeat constructor; cbn; lia.
Defined.

(** X4. Indexing the same documents a second time leaves the database as
    the first time left it. *)
Theorem index_again_changes_nothing (tx : gmap string Document.t)
    (docs : list Document.t) :
  Forall (λ d, valid_key (Document.id d)) docs →
  LMDBStorage.index (LMDBStorage.index tx (Some docs)) (Some docs)
  = LMDBStorage.index tx (Some docs).
Proof.
  intros _. apply map_eq. intros k.
  destruct (decide (k ∈ Document.id <$> docs)) as [Hk|Hk].
  - destruct (last_with_id docs k Hk) as (ds1 & d & ds2 & -> & <- & Hnin).
    by rewrite !index_lookup_last.
  - by rewrite !index_lookup_absent.
Qed.

Lemma index_again_changes_nothing_witness :
  LMDBStorage.index
    (LMDBStorage.index ∅ (Some [stored_parentB; scored_parentB]))
    (Some [stored_parentB; scored_parentB])
  = LMDBStorage.index ∅ (Some [stored_parentB; scored_parentB]).
Proof.
  apply (index_again_changes_nothing ∅ [stored_parentB; scored_parentB]).
  repeat constructor; cbn; lia.
Defined.

(** ** LMDBStorage: [search] on what [index] stored *)

(** X5. After the documents [stored] have been indexed, [search] ends
    normally on every request whose matches all carry the id of one of them,
    and each match is what [copy_from] makes of it and an indexed document of
    the same id, with its id as before; the query documents themselves are
    not touched. *)
Theorem search_after_index
    (copy_from : Document.t → Document.t → Document.t)
    (tx : gmap string Document.t) (stored : list Document.t)
    (docs : list QueryDoc) :
  Forall (λ d, valid_key (Document.id d)) stored →
  Forall (λ q, Forall (λ m, Document.id m ∈ Document.id <$> stored)
                 (matches q)) docs →
  ∃ docs',
    LMDBStorage.search copy_from (LMDBStorage.index tx (Some stored))
      (Some docs) = (Some docs', Ok ()) ∧
    Forall2
      (λ q q',
         root q' = root q ∧
         Forall2
           (λ m m', ∃ d,
              d ∈ stored ∧ Document.id d = Document.id m ∧
              m' = Document.set_id (copy_from m d) (Document.id m))
           (matches q) (matches q'))
      docs docs'.
Proof.
  intros _ Hdocs. unfold LMDBStorage.search.
  set (db := LMDBStorage.index tx (Some stored)).
  edestruct (update_each_Ok
    (λ doc, let '(ms, r) :=
              update_each (LMDBStorage.resolve_in_place copy_from db)
                (matches doc) in
            (mkQueryDoc (root doc) ms, r))
    (λ q q',
       root q' = root q ∧
       Forall2
         (λ m m', ∃ d,
            d ∈ stored ∧ Document.id d = Document.id m ∧
            m' = Document.set_id (copy_from m d) (Document.id m))
         (matches q) (matches q')) docs) as (docs' & Hsearch & Hres).
  - eapply Forall_impl; [exact Hdocs|]. intros q Hq.
    edestruct (update_each_Ok (LMDBStorage.resolve_in_place copy_from db)
      (λ m m', ∃ d,
         d ∈ stored ∧ Document.id d = Document.id m ∧
         m' = Document.set_id (copy_from m d) (Document.id m)) (matches q))
      as (ms' & Hms & Hres).
    + eapply Forall_impl; [exact Hq|]. intros m Hm.
      destruct (index_lookup_stored tx stored _ Hm) as (d & Hd & Hin & Hid).
      eexists. split; [by apply resolve_present|]. by exists d.
    + exists (mkQueryDoc (root q) ms'). rewrite Hms. by split.
  - exists docs'. by rewrite Hsearch.
Qed.

Lemma search_after_index_witness :
  ∃ docs',
    LMDBStorage.search LMDBStorage.copy_from_overwrite
      (LMDBStorage.index ∅ (Some [stored_parentB])) (Some [query_B])
    = (Some docs', Ok ()) ∧
    Forall2
      (λ q q',
         root q' = root q ∧
         Forall2
           (λ m m', ∃ d,
              d ∈ [stored_parentB] ∧ Document.id d = Document.id m ∧
              m' = Document.set_id (LMDBStorage.copy_from_overwrite m d)
                     (Document.id m))
           (matches q) (matches q'))
      [query_B] docs'.
Proof.
  apply (search_after_index LMDBStorage.copy_from_overwrite ∅
           [stored_parentB] [query_B]).
  - repeat constructor; cbn; lia.
  - repeat constructor.
Defined.

Lemma update_each_Forall2 {A} (body : A → A * result ()) (R : A → A → Prop)
    (l : list A) :
  (∀ x, R x x) → (∀ x, R x (body x).1) → Forall2 R l (update_each body l).1.
Proof.
  intros Hrefl Hbody. induction l as [|x l IH]; cbn; [constructor|].
  specialize (Hbody x). destruct (body x) as [x' [[]|e]]; cbn in Hbody.
  - destruct (update_each body l) as [l' r]. cbn in *. by constructor.
  - cbn. constructor; [done|]. apply Forall_Forall2_diag, Forall_forall. auto.
Qed.

Lemma resolve_in_place_id (copy_from : Document.t → Document.t → Document.t)
    (tx : gmap string Document.t) (m : Document.t) :
  Document.id (LMDBStorage.resolve_in_place copy_from tx m).1 = Document.id m.
Proof.
  unfold LMDBStorage.resolve_in_place, LMDBStorage.resolve.
  by destruct (tx !! Document.id m).
Qed.

(** X6. However [search] ends, normally or with an exception, it leaves as
    many queries as it was given, each with the same root document and with
    matches of the same ids in the same order: it neither adds, drops nor
    reorders a match, and never changes an id. *)
Theorem search_keeps_documents_and_ids
    (copy_from : Document.t → Document.t → Document.t)
    (tx : gmap string Document.t) (docs docs' : list QueryDoc)
    (r : result ()) :
  LMDBStorage.search copy_from tx (Some docs) = (Some docs', r) →
  Forall2
    (λ q q',
       root q' = root q ∧
       Document.id <$> matches q' = Document.id <$> matches q)
    docs docs'.
Proof.
  unfold LMDBStorage.search.
  pose proof (update_each_Forall2
    (λ doc, let '(ms, r) :=
              update_each (LMDBStorage.resolve_in_place copy_from tx)
                (matches doc) in
            (mkQueryDoc (root doc) ms, r))
    (λ q q', root q' = root q ∧
             Document.id <$> matches q' = Document.id <$> matches q) docs)
    as Hall.
  destruct (update_each _ docs) as [ds r']. intros [= <- <-].
  apply Hall; [done|]. intros q.
  pose proof (update_each_Forall2
    (LMDBStorage.resolve_in_place copy_from tx)
    (λ m m', Document.id m' = Document.id m) (matches q)) as Hms.
  destruct (update_each _ (matches q)) as [ms r'']. cbn in *.
  split; [done|]. symmetry. apply list_eq_Forall2, Forall2_fmap.
  eapply Forall2_impl; [apply Hms|]; [done| |done].
  intros m. apply resolve_in_place_id.
Qed.

Lemma search_keeps_documents_and_ids_witness :
  Forall2
    (λ q q',
       root q' = root q ∧
       Document.id <$> matches q' = Document.id <$> matches q)
    [mkQueryDoc (Document.new "q" ∅)
       [parent "parentB" 0.2; parent "parentA" 0.3]]
    [mkQueryDoc (Document.new "q" ∅)
       [stored_parentB; parent "parentA" 0.3]].
Proof.
  apply (search_keeps_documents_and_ids LMDBStorage.copy_from_overwrite
           (LMDBStorage.index ∅ (Some [stored_parentB]))
           [mkQueryDoc (Document.new "q" ∅)
              [parent "parentB" 0.2; parent "parentA" 0.3]]
           [mkQueryDoc (Document.new "q" ∅)
              [stored_parentB; parent "parentA" 0.3]]
           (Raise TypeError)).
  vm_compute. reflexivity.
Defined.

(** ** The query flow: [SimpleRanker] followed by [LMDBStorage] *)

(** The parent-level matches of one query: one per parent, freshly built. *)
Lemma rank_doc_parents (self : SimpleRanker.t) (q : QueryDoc) :
  Forall (λ m, is_Some (Document.scores m !! SimpleRanker.metric self))
    (matches q) →
  ∃ ranked,
    SimpleRanker.rank_doc self q = Ok (mkQueryDoc (root q) ranked) ∧
    NoDup (Document.id <$> ranked) ∧
    (∀ p, p ∈ Document.id <$> ranked ↔ p ∈ Document.parent_id <$> matches q) ∧
    Forall (λ d, ∃ x, d = Document.new (Document.id d)
                          {[ SimpleRanker.metric self := x ]}) ranked.
Proof.
  intros Hq.
  destruct (rank_doc_spec self q Hq)
    as (ps & out & ranked & Hps & Hout & _ & Hperm & Hrank).
  destruct (chunk_scores_Ok _ _ Hq) as (ps' & Hps' & Hparents).
  rewrite Hps in Hps'. injection Hps' as <-.
  destruct (aggregate_Ok self (grouped ps [])) as (out' & Hout' & Hid & Hnew).
  { apply grouped_nonempty. constructor. }
  rewrite Hout in Hout'. injection Hout' as <-.
  destruct (grouped_keys ps []) as [Hnd Hin]; [constructor|].
  exists ranked. split_and!; [done| | |].
  - by rewrite Hperm, Hid.
  - intros p. rewrite Hperm, Hid, Hin, Hparents, elem_of_nil. tauto.
  - rewrite Hperm. eapply Forall_impl; [exact Hnew|].
    intros d (p & x & ->). by exists x.
Qed.

Lemma Forall2_compose {A B C} (P : A → B → Prop) (Q : B → C → Prop)
    (R : A → C → Prop) (l : list A) (k : list B) (m : list C) :
  (∀ a b c, P a b → Q b c → R a c) →
  Forall2 P l k → Forall2 Q k m → Forall2 R l m.
Proof.
  intros HR Hlk. revert m.
  induction Hlk as [|a b l k Hab _ IH]; intros m Hkm.
  - apply Forall2_nil_inv_l in Hkm as ->. constructor.
  - apply Forall2_cons_inv_l in Hkm as (c & m' & Hbc & Hkm & ->).
    constructor; [by eapply HR|by apply IH].
Qed.

(** A loop whose body can only fail with [e0] fails with [e0] as soon as
    the body fails on one item. *)
Lemma update_each_outcome {A} (body : A → A * result ()) (l : list A)
    (e0 : exn) :
  (∀ x, (body x).2 = Ok () ∨ (body x).2 = Raise e0) →
  ((update_each body l).2 = Ok () ∨ (update_each body l).2 = Raise e0) ∧
  (Exists (λ x, (body x).2 = Raise e0) l →
   (update_each body l).2 = Raise e0).
Proof.
  intros Hbody. induction l as [|x l [IH1 IH2]]; cbn.
  - split; [by left|]. by intros ?%Exists_nil.
  - specialize (Hbody x).
    destruct (body x) as [x' [[]|e]] eqn:Hbx; cbn in Hbody.
    + destruct (update_each body l) as [l' r]. cbn in *.
      split; [done|]. intros [Hx|Hl]%Exists_cons; [|by apply IH2].
      by rewrite Hbx in Hx.
    + cbn. destruct Hbody as [|[= ->]]; [done|]. split; [by right|done].
Qed.

Lemma search_missing (copy_from : Document.t → Document.t → Document.t)
    (tx : gmap string Document.t) (docs : list QueryDoc) :
  Exists (λ q, Exists (λ m, tx !! Document.id m = None) (matches q)) docs →
  ∃ docs', LMDBStorage.search copy_from tx (Some docs)
           = (Some docs', Raise TypeError).
Proof.
  intros Hdocs. unfold LMDBStorage.search.
  assert (Hinner : ∀ m, (LMDBStorage.resolve_in_place copy_from tx m).2 = Ok ()
                      ∨ (LMDBStorage.resolve_in_place copy_from tx m).2
                        = Raise TypeError).
  { intros m. unfold LMDBStorage.resolve_in_place, LMDBStorage.resolve.
    destruct (tx !! Document.id m); [by left|by right]. }
  set (body := λ doc : QueryDoc,
         let '(ms, r) :=
           update_each (LMDBStorage.resolve_in_place copy_from tx)
             (matches doc) in
         (mkQueryDoc (root doc) ms, r)).
  assert (Hbody : ∀ q, (body q).2
            = (update_each (LMDBStorage.resolve_in_place copy_from tx)
                 (matches q)).2).
  { intros q. unfold body. by destruct (update_each _ (matches q)). }
  destruct (update_each_outcome body docs TypeError) as [_ Hraise].
  { intros q. rewrite Hbody.
    by destruct (update_each_outcome _ (matches q) TypeError Hinner). }
  destruct (update_each body docs) as [docs' r]. cbn in Hraise.
  exists docs'. rewrite Hraise; [done|].
  eapply Exists_impl; [exact Hdocs|]. intros q Hq. rewrite Hbody.
  destruct (update_each_outcome _ (matches q) TypeError Hinner) as [_ Hr].
  apply Hr. eapply Exists_impl; [exact Hq|]. intros m Hm.
  unfold LMDBStorage.resolve_in_place, LMDBStorage.resolve. by rewrite Hm.
Qed.

(** X7. The query flow hands the output of [rank] to [search].  When every
    chunk match carries a score, [rank] returns.  If the parent of every
    chunk is in the database, [search] then ends normally and leaves each
    query with exactly one match per parent of its chunks, under the id of
    the parent, holding what [copy_from] makes of the freshly scored match
    and the stored parent.  If the parent of some chunk is not in the
    database, [search] ends with the exception of the failed lookup. *)
Theorem rank_then_search
    (copy_from : Document.t → Document.t → Document.t)
    (self : SimpleRanker.t) (tx : gmap string Document.t)
    (docs : list QueryDoc) :
  Forall (λ q, Forall (λ m, is_Some (Document.scores m !!
                                       SimpleRanker.metric self))
                 (matches q)) docs →
  ∃ docs1,
    SimpleRanker.rank self (Some docs) = Ok (Some docs1) ∧
    (Forall (λ q, Forall (λ m, is_Some (tx !! Document.parent_id m))
                    (matches q)) docs →
     ∃ docs2,
       LMDBStorage.search copy_from tx (Some docs1) = (Some docs2, Ok ()) ∧
       Forall2
         (λ q q2,
            root q2 = root q ∧
            NoDup (Document.id <$> matches q2) ∧
            (∀ p, p ∈ Document.id <$> matches q2
                  ↔ p ∈ Document.parent_id <$> matches q) ∧
            Forall (λ m2, ∃ x d,
                      tx !! Document.id m2 = Some d ∧
                      m2 = Document.set_id
                             (copy_from
                                (Document.new (Document.id m2)
                                   {[ SimpleRanker.metric self := x ]}) d)
                             (Document.id m2)) (matches q2))
         docs docs2) ∧
    (Exists (λ q, Exists (λ m, tx !! Document.parent_id m = None)
                    (matches q)) docs →
     ∃ docs2,
       LMDBStorage.search copy_from tx (Some docs1)
       = (Some docs2, Raise TypeError)).
Proof.
  intros Hdocs.
  destruct (rank_each self
    (λ q q1, root q1 = root q ∧
       NoDup (Document.id <$> matches q1) ∧
       (∀ p, p ∈ Document.id <$> matches q1
             ↔ p ∈ Document.parent_id <$> matches q) ∧
       Forall (λ d, ∃ x, d = Document.new (Document.id d)
                             {[ SimpleRanker.metric self := x ]}) (matches q1))
    docs) as (docs1 & Hrank & H1).
  { eapply Forall_impl; [exact Hdocs|]. intros q Hq.
    destruct (rank_doc_parents self q Hq) as (ranked & Hr & Hnd & Hin & Hnew).
    eexists. split; [exact Hr|]. by cbn. }
  exists docs1. split_and!; [done| |].
  - intros Hstored.
    assert (Hpresent : Forall (λ q, Forall (present tx) (matches q)) docs1).
    { clear -H1 Hstored.
      induction H1 as [|q q1 ? ? (_ & _ & Hin & _) _ IH]; [constructor|].
      apply Forall_cons in Hstored as [Hq Hstored].
      constructor; [|by apply IH].
      apply Forall_forall. intros d Hd. unfold present.
      assert (Hp : Document.id d ∈ Document.id <$> matches q1).
      { apply list_elem_of_fmap. by exists d. }
      apply Hin, list_elem_of_fmap in Hp as (m & -> & Hm).
      rewrite Forall_forall in Hq. by apply Hq. }
    unfold LMDBStorage.search.
    destruct (update_each_Ok _ _ _
                (resolve_docs_present copy_from tx _ Hpresent))
      as (docs2 & Hsearch & H2).
    exists docs2. rewrite Hsearch. split; [done|].
    eapply Forall2_compose; [|exact H1|exact H2].
    intros q q1 q2 (Hroot & Hnd & Hin & Hnew) [Hroot2 Hms]. cbn beta.
    assert (Hids : Document.id <$> matches q2 = Document.id <$> matches q1).
    { symmetry. apply list_eq_Forall2, Forall2_fmap.
      eapply Forall2_impl; [exact Hms|]. by intros m m' (d & _ & ->). }
    rewrite Hids. split_and!; [congruence|done|done|].
    clear -Hms Hnew. induction Hms as [|m m2 ms ms2 (d & Hd & ->) _ IH];
      [constructor|].
    apply Forall_cons in Hnew as [[x Hx] Hnew]. constructor; [|by apply IH].
    exists x, d. cbn. split; [done|]. by rewrite <- Hx.
  - intros Hmissing. apply search_missing.
    clear -H1 Hmissing.
    induction H1 as [|q q1 ? ? (_ & _ & Hin & _) _ IH];
      [by apply Exists_nil in Hmissing|].
    apply Exists_cons in Hmissing as [Hq|Hrest];
      [|apply Exists_cons; right; by apply IH].
    apply Exists_cons. left.
    apply Exists_exists in Hq as (m & Hm & Hnone).
    assert (Hp : Document.parent_id m ∈ Document.id <$> matches q1).
    { apply Hin, list_elem_of_fmap. by exists m. }
    apply list_elem_of_fmap in Hp as (d & Hid & Hd).
    apply Exists_exists. exists d. split; [done|]. by rewrite <- Hid.
Qed.

Lemma rank_then_search_witness :
  ∃ docs1,
    SimpleRanker.rank (SimpleRanker.mk "cosine")
      (Some [mkQueryDoc (Document.new "q" ∅)
               [chunk "chunk1" "parentB" 0.1; chunk "chunk2" "parentB" 0.05]])
    = Ok (Some docs1) ∧
    (Forall (λ q, Forall (λ m,
               is_Some (LMDBStorage.index ∅ (Some [stored_parentB])
                          !! Document.parent_id m)) (matches q))
       [mkQueryDoc (Document.new "q" ∅)
          [chunk "chunk1" "parentB" 0.1; chunk "chunk2" "parentB" 0.05]] →
     ∃ docs2,
       LMDBStorage.search LMDBStorage.copy_from_overwrite
         (LMDBStorage.index ∅ (Some [stored_parentB])) (Some docs1)
       = (Some docs2, Ok ()) ∧
       Forall2
         (λ q q2,
            root q2 = root q ∧
            NoDup (Document.id <$> matches q2) ∧
            (∀ p, p ∈ Document.id <$> matches q2
                  ↔ p ∈ Document.parent_id <$> matches q) ∧
            Forall (λ m2, ∃ x d,
                      LMDBStorage.index ∅ (Some [stored_parentB])
                        !! Document.id m2 = Some d ∧
                      m2 = Document.set_id
                             (LMDBStorage.copy_from_overwrite
                                (Document.new (Document.id m2)
                                   {[ "cosine" := x ]}) d)
                             (Document.id m2)) (matches q2))
         [mkQueryDoc (Document.new "q" ∅)
            [chunk "chunk1" "parentB" 0.1; chunk "chunk2" "parentB" 0.05]]
         docs2) ∧
    (Exists (λ q, Exists (λ m,
               LMDBStorage.index ∅ (Some [stored_parentB])
                 !! Document.parent_id m = None) (matches q))
       [mkQueryDoc (Document.new "q" ∅)
          [chunk "chunk1" "parentB" 0.1; chunk "chunk2" "parentB" 0.05]] →
     ∃ docs2,
       LMDBStorage.search LMDBStorage.copy_from_overwrite
         (LMDBStorage.index ∅ (Some [stored_parentB])) (Some docs1)
       = (Some docs2, Raise TypeError)).
Proof.
  apply (rank_then_search LMDBStorage.copy_from_overwrite
           (SimpleRanker.mk "cosine")
           (LMDBStorage.index ∅ (Some [stored_parentB]))
           [mkQueryDoc (Document.new "q" ∅)
              [chunk "chunk1" "parentB" 0.1; chunk "chunk2" "parentB" 0.05]]).
  repeat constructor; eexists; reflexivity.
Defined.

(** ** TagsHasher: the digest *)

Lemma be_bytes_bytes (n : nat) (x : Z) :
  length (MD5.be_bytes n x) = n ∧ Forall (λ b, 0 ≤ b < 256) (MD5.be_bytes n x).
Proof.
  revert x. induction n as [|n IH]; intros x; cbn; [by split|].
  destruct (IH (x / 256)) as [Hl Hb]. rewrite length_app, Hl. cbn.
  split; [lia|]. apply Forall_app. split; [done|].
  constructor; [|done]. apply Z.mod_pos_bound. lia.
Qed.

Lemma le_bound (bs : list Z) :
  Forall (λ b, 0 ≤ b < 256) bs → 0 ≤ MD5.le bs < 256 ^ Z.of_nat (length bs).
Proof.
  induction 1 as [|b bs Hb _ IH]; cbn [MD5.le length]; [done|].
  rewrite Nat2Z.inj_succ, Z.pow_succ_r by lia. lia.
Qed.

Lemma digest_bytes (msg : list Z) :
  length (MD5.digest msg) = 16%nat ∧
  Forall (λ b, 0 ≤ b < 256) (MD5.digest msg).
Proof.
  unfold MD5.digest.
  destruct (fold_left MD5.block _ _) as [[[a b] c] d].
  pose proof (be_bytes_bytes 4 a) as [? ?].
  pose proof (be_bytes_bytes 4 b) as [? ?].
  pose proof (be_bytes_bytes 4 c) as [? ?].
  pose proof (be_bytes_bytes 4 d) as [? ?].
  rewrite !length_app, !length_rev. split; [lia|].
  rewrite !Forall_app. split_and!; by apply Forall_rev.
Qed.

(** The digest has 16 bytes, so read as a numeral it is below [2 ^ 128]. *)
Lemma hexdigest_int_bound (s : string) :
  (MD5.hexdigest_int s < 2 ^ 128)%N.
Proof.
  unfold MD5.hexdigest_int.
  destruct (digest_bytes (MD5.bytes_of s)) as [Hl Hb].
  pose proof (le_bound (rev (MD5.digest (MD5.bytes_of s)))) as Hle.
  rewrite length_rev, Hl in Hle.
  assert (Forall (λ b, 0 ≤ b < 256) (rev (MD5.digest (MD5.bytes_of s))))
    as Hrev by by apply Forall_rev.
  specialize (Hle Hrev). change (256 ^ Z.of_nat 16) with (2 ^ 128) in Hle.
  lia.
Qed.

(** ** TagsHasher: what [encode] tells apart, and when it raises *)

Section more_hasher_facts.
Context `{Builtins}.
Implicit Types (self : TagsHasher.t) (v : value) (k s : string).

Lemma any_hash_int self v z :
  py_int v = Ok z → TagsHasher._any_hash self v = Ok (Int z).
Proof. intros Hz. unfold TagsHasher._any_hash. by rewrite Hz. Qed.

Lemma any_hash_same_int self v v' :
  same_int v v' → TagsHasher._any_hash self v = TagsHasher._any_hash self v'.
Proof.
  intros [->|(z & Hv & Hv')]; [done|]. by rewrite !(any_hash_int _ _ z).
Qed.

Lemma for_each_add_tag_same_int self A A' (a : TagsHasher.acc) :
  Forall2 (λ kv kv', kv.1 = kv'.1 ∧ same_int kv.2 kv'.2) A A' →
  for_each (TagsHasher.add_tag self) A a
  = for_each (TagsHasher.add_tag self) A' a.
Proof.
  intros HA. revert a.
  induction HA as [|[k v] [k' v'] A A' [Hk Hv] _ IH]; intros a;
    cbn [for_each]; [done|].
  cbn in Hk, Hv. subst k'.
  assert (TagsHasher.add_tag self a (k, v) = TagsHasher.add_tag self a (k, v'))
    as ->.
  { unfold TagsHasher.add_tag, TagsHasher.contribution.
    by rewrite (any_hash_same_int self v v'). }
  destruct (TagsHasher.add_tag self a (k, v')); cbn; [apply IH|done].
Qed.

(** X8. [_any_hash] tries [int(v)] first, so [encode] reads a tag value
    only through [int] whenever [int] accepts it: the string ["1987"], the
    integer 1987 and the float 1987.9 (which [int] truncates) under the same
    name give the same embedding, or make [encode] raise alike. *)
Theorem encode_reads_values_through_int self (A A' : list (string * value))
    (e : option embedding) :
  Forall2 (λ kv kv', kv.1 = kv'.1 ∧ same_int kv.2 kv'.2) A A' →
  doc_embedding <$> TagsHasher.encode_doc self (mkTagDoc A e)
  = doc_embedding <$> TagsHasher.encode_doc self (mkTagDoc A' e).
Proof.
  intros HA. unfold TagsHasher.encode_doc. cbn [tags].
  destruct HA as [|kv kv' A A' Hkv HA]; [done|].
  destruct (np_zeros _) as [zeros|err]; [|done]. rewrite !bind_Ok.
  rewrite (for_each_add_tag_same_int self (kv :: A) (kv' :: A'))
    by by constructor.
  destruct (for_each _ _ _) as [a|err]; [|done]. rewrite !bind_Ok.
  by destruct (TagsHasher.sparse self).
Qed.

Lemma any_hash_float_name self k f :
  str_to_int k = None → str_to_float k = Some f →
  TagsHasher._any_hash self (VStr k) = Ok (Float f).
Proof.
  intros Hi Hf. unfold TagsHasher._any_hash. cbn. by rewrite Hi, Hf.
Qed.

Lemma py_mod_float (f : float) (w : Z) (col : number) :
  py_mod (Float f) w = Ok col → ∃ r, col = Float r.
Proof.
  unfold py_mod. destruct (py_float _) as [wx|e]; [|done]. rewrite bind_Ok.
  destruct (float_rem f wx) as [r|e]; [|done]. rewrite bind_Ok.
  intros [= <-]. by exists r.
Qed.

Lemma contribution_float_name self k v f cv :
  TagsHasher._any_hash self (VStr k) = Ok (Float f) →
  TagsHasher.contribution self (k, v) = Ok cv → ∃ r, cv.1 = Float r.
Proof.
  intros Hk. unfold TagsHasher.contribution. rewrite Hk, bind_Ok.
  destruct (py_mod (Float f) _) as [col|e] eqn:Hcol; [|done].
  rewrite bind_Ok.
  destruct (TagsHasher._any_hash self v) as [x|e]; [|done]. rewrite bind_Ok.
  destruct (py_mod x _) as [y|e]; [|done]. rewrite bind_Ok.
  intros [= <-]. by apply py_mod_float in Hcol.
Qed.

Lemma map_each_Raise {A B} (f : A → result B) (l : list A) (x : A) :
  x ∈ l → ¬ is_Ok (f x) → ∃ e, map_each f l = Raise e.
Proof.
  intros Hx Hf. destruct (map_each f l) as [ys|e] eqn:Hl; [|by eexists].
  apply map_each_inv in Hl. apply list_elem_of_lookup_1 in Hx as [i Hi].
  destruct (Forall2_lookup_l _ _ _ _ _ Hl Hi) as (y & _ & Hy).
  destruct Hf. by exists y.
Qed.

(** X9. A tag whose name [int] rejects and [float] accepts (["1.5"],
    ["1e3"], ["nan"]) is hashed to a float column, which the table does not
    take as an index: [encode] raises on every document that has such a tag,
    whatever the configuration, and so on every request that holds such a
    document. *)
Theorem encode_raises_on_float_like_name self (docs : list TagDoc)
    (doc : TagDoc) k v f :
  doc ∈ docs → (k, v) ∈ tags doc →
  str_to_int k = None → str_to_float k = Some f →
  (∃ e, TagsHasher.encode_doc self doc = Raise e) ∧
  (∃ e, TagsHasher.encode self docs = Raise e).
Proof.
  intros Hdoc Hkv Hi Hf.
  assert (Hraise : ¬ is_Ok (TagsHasher.encode_doc self doc)).
  { intros [doc' Hok]. revert Hok. unfold TagsHasher.encode_doc.
    destruct (tags doc) as [|kv A] eqn:HA; [by apply elem_of_nil in Hkv|].
    destruct (np_zeros _) as [zeros|e]; [|done]. rewrite bind_Ok.
    destruct (for_each _ _ _) as [a|e] eqn:Ha; [|done]. intros _.
    apply for_each_add_tag_inv in Ha as (cs & Hcs & Hint).
    apply map_each_inv in Hcs.
    apply list_elem_of_lookup_1 in Hkv as [i Hi'].
    destruct (Forall2_lookup_l _ _ _ _ _ Hcs Hi') as (cv & Hcv & Hc).
    destruct (contribution_float_name self k v f cv) as [r Hr];
      [by apply any_hash_float_name|done|].
    rewrite Forall_forall in Hint.
    destruct (Hint cv) as [c Hc']; [by eapply list_elem_of_lookup_2|].
    congruence. }
  split.
  - destruct (TagsHasher.encode_doc self doc) as [d'|e]; [|by eexists].
    destruct Hraise. by eexists.
  - by apply (map_each_Raise _ docs doc).
Qed.

(** X10. [_any_hash] returns exactly on integers, booleans, strings and
    floats other than the two infinities ([int] raises [OverflowError] on
    those, which no handler catches; a NaN is a [ValueError] of [int] and
    comes back through [float]).  On a null, a list, a tuple and a mapping
    it raises. *)
Theorem any_hash_returns_iff self v :
  is_Ok (TagsHasher._any_hash self v) ↔
  match v with
  | VInt _ | VBool _ | VStr _ => True
  | VFloat f => f ≠ infinity ∧ f ≠ neg_infinity
  | VNone | VList _ | VTuple _ | VDict _ => False
  end.
Proof.
  destruct v as [|b|z|f|s|l|l|d]; try (split; [by intros [? ?]|done]);
    try (split; [done|intros _; by eexists]).
  - unfold TagsHasher._any_hash. cbn.
    destruct (Prim2SF f) as [sg|sg| |sg m e] eqn:Hf.
    + split; [|intros _; by eexists]. intros _.
      split; intros ->; vm_compute in Hf; discriminate.
    + split; [by intros [? ?]|]. intros [Hp Hn]. destruct sg.
      * destruct Hn. apply Prim2SF_inj. by rewrite Hf.
      * destruct Hp. apply Prim2SF_inj. by rewrite Hf.
    + split; [|intros _; by eexists]. intros _.
      split; intros ->; vm_compute in Hf; discriminate.
    + split; [|intros _; by eexists]. intros _.
      split; intros ->; vm_compute in Hf; discriminate.
  - split; [done|]. intros _. apply any_hash_str_Ok.
Qed.


(** ** TagsHasher: the table of integer contributions *)

Lemma map_each_app {A B} (f : A → result B) (l1 l2 : list A)
    (ys1 ys2 : list B) :
  map_each f l1 = Ok ys1 → map_each f l2 = Ok ys2 →
  map_each f (l1 ++ l2) = Ok (ys1 ++ ys2).
Proof.
  revert ys1. induction l1 as [|x l1 IH]; intros ys1; cbn.
  - by intros [= <-].
  - destruct (f x) as [y|e]; [|done]. rewrite !bind_Ok.
    destruct (map_each f l1) as [ys|e]; [|done]. rewrite bind_Ok.
    intros [= <-] H2. by rewrite (IH ys eq_refl H2).
Qed.

Lemma map_each_app_inv {A B} (f : A → result B) (l1 l2 : list A)
    (ys : list B) :
  map_each f (l1 ++ l2) = Ok ys →
  ∃ ys1 ys2, ys = ys1 ++ ys2 ∧ map_each f l1 = Ok ys1 ∧
             map_each f l2 = Ok ys2.
Proof.
  revert ys. induction l1 as [|x l1 IH]; intros ys; cbn.
  - intros Hys. by exists [], ys.
  - destruct (f x) as [y|e]; [|done]. rewrite !bind_Ok.
    destruct (map_each f (l1 ++ l2)) as [ys'|e] eqn:Hys'; [|done].
    rewrite bind_Ok. intros [= <-].
    destruct (IH ys' eq_refl) as (ys1 & ys2 & -> & -> & ->).
    by exists (y :: ys1), ys2.
Qed.

Lemma column_app cs cs' (j : nat) :
  column (cs ++ cs') j = column cs j ++ column cs' j.
Proof. unfold column. by rewrite filter_app, fmap_app. Qed.

Lemma column_total_app cs cs' (j : nat) :
  column_total (cs ++ cs') j = column_total cs j + column_total cs' j.
Proof.
  unfold column_total. rewrite column_app, fmap_app.
  induction (int_value <$> column cs j) as [|z zs IH]; cbn; lia.
Qed.

(** The dense table in closed form, for integer contributions that add up
    below [2 ^ 53]. *)
Lemma encode_dense_exact self doc cs :
  0 < TagsHasher.n_dim self → 0 < TagsHasher.max_val self →
  TagsHasher.sparse self = false → tags doc ≠ [] →
  contributions self (tags doc) = Ok cs →
  Forall integral cs →
  (TagsHasher.max_val self - 1) * Z.of_nat (length cs) < 2 ^ 53 →
  TagsHasher.encode_doc self doc
  = Ok (mkTagDoc (tags doc)
          (Some (Dense ((λ j, float_of_Z (column_total cs j))
                          <$> seq 0 (Z.to_nat (TagsHasher.n_dim self)))))).
Proof.
  intros Hn Hm Hsp Htags Hcs Hint Hsmall.
  destruct (encode_dense_columns self doc cs) as (t & -> & Hlen & Hcols);
    try done.
  { eapply Forall_impl; [exact Hint|]. intros cv (c & x & ->). by exists c. }
  do 4 f_equal. apply list_eq. intros j.
  rewrite list_lookup_fmap.
  destruct (decide (j < Z.to_nat (TagsHasher.n_dim self))%nat) as [Hj|Hj].
  - rewrite lookup_seq_lt by done. cbn. rewrite Hcols by lia. f_equal.
    apply (column_exact self); try done.
    by apply (contributions_inv self (tags doc)).
  - rewrite lookup_seq_ge by lia. cbn. apply lookup_ge_None. lia.
Qed.

Lemma column_total_bound self cs (j : nat) :
  0 < TagsHasher.max_val self →
  Forall (λ cv, ∃ kv, TagsHasher.contribution self kv = Ok cv) cs →
  Z.abs (column_total cs j)
  ≤ (TagsHasher.max_val self - 1) * Z.of_nat (length cs).
Proof.
  intros Hm Hcs. unfold column_total.
  pose proof (abs_total_le (column cs j)).
  pose proof (column_abs_bound self cs j Hm Hcs).
  pose proof (column_count_le cs j). nia.
Qed.

(** X11. The table is additive in the tags.  When the tags of a document
    are those of [A] followed by those of [B], all contributions are integers
    and small enough to add exactly, the table of the document is the
    component-wise sum of the table of [A] and the table of [B]: the
    embedding of the filter [{"Subject": "Comedy", "Year": 1987}] is the sum
    of the embeddings of its two parts. *)
Theorem encode_adds_up self (A B : list (string * value))
    (eA eB eAB : option embedding) csA csB :
  0 < TagsHasher.n_dim self → 0 < TagsHasher.max_val self →
  TagsHasher.sparse self = false → A ≠ [] → B ≠ [] →
  contributions self A = Ok csA → contributions self B = Ok csB →
  Forall integral csA → Forall integral csB →
  (TagsHasher.max_val self - 1) * Z.of_nat (length A + length B) < 2 ^ 53 →
  ∃ tA tB,
    TagsHasher.encode_doc self (mkTagDoc A eA)
    = Ok (mkTagDoc A (Some (Dense tA))) ∧
    TagsHasher.encode_doc self (mkTagDoc B eB)
    = Ok (mkTagDoc B (Some (Dense tB))) ∧
    TagsHasher.encode_doc self (mkTagDoc (A ++ B) eAB)
    = Ok (mkTagDoc (A ++ B)
            (Some (Dense (zip_with (λ x y, x + y)%float tA tB)))).
Proof.
  intros Hn Hm Hsp HA HB HcsA HcsB HintA HintB Hsmall.
  assert (HlA : length csA = length A).
  { apply map_each_inv in HcsA. by rewrite (Forall2_length _ _ _ HcsA). }
  assert (HlB : length csB = length B).
  { apply map_each_inv in HcsB. by rewrite (Forall2_length _ _ _ HcsB). }
  assert (HpA := contributions_inv self A csA HcsA).
  assert (HpB := contributions_inv self B csB HcsB).
  eexists _, _. split_and!.
  - apply (encode_dense_exact self (mkTagDoc A eA) csA); try done.
    rewrite HlA. nia.
  - apply (encode_dense_exact self (mkTagDoc B eB) csB); try done.
    rewrite HlB. nia.
  - rewrite (encode_dense_exact self (mkTagDoc (A ++ B) eAB) (csA ++ csB));
      try done.
    + do 4 f_equal.
      generalize (seq 0 (Z.to_nat (TagsHasher.n_dim self))). intros js.
      induction js as [|j js IH]; [done|]. cbn. rewrite IH. f_equal.
      rewrite column_total_app.
      pose proof (column_total_bound self csA j Hm HpA).
      pose proof (column_total_bound self csB j Hm HpB).
      symmetry. apply float_add_exact; nia.
    + cbn. by destruct A.
    + by apply map_each_app.
    + by apply Forall_app.
    + rewrite length_app, HlA, HlB. lia.
Qed.


Lemma contribution_zero_value self k v h :
  0 < TagsHasher.n_dim self → 0 < TagsHasher.max_val self →
  TagsHasher._any_hash self (VStr k) = Ok (Int h) →
  TagsHasher._any_hash self v = Ok (Int 0) →
  TagsHasher.contribution self (k, v)
  = Ok (Int (h mod TagsHasher.n_dim self), Int 0).
Proof.
  intros Hn Hm Hk Hv. unfold TagsHasher.contribution.
  rewrite Hk, Hv. cbn.
  destruct (Z.eqb_spec (TagsHasher.n_dim self) 0); [lia|].
  destruct (Z.eqb_spec (TagsHasher.max_val self) 0); [lia|]. cbn.
  do 3 f_equal. rewrite Zmod_0_l. lia.
Qed.

(** X12. A tag whose value is hashed to 0 (an empty string, [0], [False],
    ["false"], ["no"], a float between -1 and 1) adds 0 to its column: among
    integer contributions that add exactly, a document with such a tag gets
    the same table as the document without it. *)
Theorem encode_ignores_zero_valued_tag self (A1 A2 : list (string * value))
    k v (h : Z) (e e' : option embedding) cs :
  0 < TagsHasher.n_dim self → 0 < TagsHasher.max_val self →
  TagsHasher.sparse self = false → A1 ++ A2 ≠ [] →
  contributions self (A1 ++ A2) = Ok cs → Forall integral cs →
  TagsHasher._any_hash self (VStr k) = Ok (Int h) →
  TagsHasher._any_hash self v = Ok (Int 0) →
  (TagsHasher.max_val self - 1) * Z.of_nat (length (A1 ++ A2) + 1) < 2 ^ 53 →
  ∃ t,
    TagsHasher.encode_doc self (mkTagDoc (A1 ++ A2) e)
    = Ok (mkTagDoc (A1 ++ A2) (Some (Dense t))) ∧
    TagsHasher.encode_doc self (mkTagDoc (A1 ++ (k, v) :: A2) e')
    = Ok (mkTagDoc (A1 ++ (k, v) :: A2) (Some (Dense t))).
Proof.
  intros Hn Hm Hsp HA Hcs Hint Hk Hv Hsmall.
  assert (Hl : length cs = length (A1 ++ A2)).
  { apply map_each_inv in Hcs. by rewrite (Forall2_length _ _ _ Hcs). }
  destruct (map_each_app_inv _ _ _ _ Hcs) as (cs1 & cs2 & -> & Hcs1 & Hcs2).
  assert (Hkv := contribution_zero_value self k v h Hn Hm Hk Hv).
  set (c := h mod TagsHasher.n_dim self) in *.
  assert (Hcs' : contributions self (A1 ++ (k, v) :: A2)
                 = Ok (cs1 ++ (Int c, Int 0) :: cs2)).
  { apply map_each_app; [done|]. cbn [map_each].
    by rewrite Hkv, bind_Ok, Hcs2. }
  eexists. split.
  - apply (encode_dense_exact self (mkTagDoc (A1 ++ A2) e) (cs1 ++ cs2));
      try done. rewrite Hl. lia.
  - rewrite (encode_dense_exact self (mkTagDoc (A1 ++ (k, v) :: A2) e')
               (cs1 ++ (Int c, Int 0) :: cs2)); try done.
    + do 4 f_equal. apply list_fmap_ext. intros _ j _. f_equal.
      rewrite !column_total_app. f_equal.
      unfold column_total, column. rewrite filter_cons.
      destruct (decide _); [|done]. cbn. lia.
    + cbn. by destruct A1.
    + apply Forall_app in Hint as [H1 H2]. apply Forall_app. split; [done|].
      constructor; [by exists c, 0|done].
    + replace (length (cs1 ++ (Int c, Int 0) :: cs2))
        with (length (A1 ++ A2) + 1)%nat; [done|].
      rewrite <- Hl, !length_app. cbn. lia.
Qed.


(** X13. The hash [h] of the notebook is the column [encode] uses with the
    default 256 dimensions, for a name that is a plain string without
    surrounding whitespace: the contribution of the tag goes to column
    [h(name)], which is below 256. *)
Theorem demo_hash_is_column self (m : Z) (sp : bool) k v col val :
  TagsHasher.__init__ 256 m sp = Ok self →
  plain k → str_strip k = k →
  TagsHasher.contribution self (k, v) = Ok (col, val) →
  col = Int (Notebook.h (VStr k)) ∧ 0 ≤ Notebook.h (VStr k) < 256.
Proof.
  intros [= <-] Hk Hstrip. unfold TagsHasher.contribution.
  rewrite (any_hash_plain _ k Hk), bind_Ok. cbn [TagsHasher.hash TagsHasher.n_dim].
  rewrite Hstrip. cbn [py_mod]. change (256 =? 0) with false. cbv iota.
  rewrite bind_Ok.
  destruct (TagsHasher._any_hash _ v) as [x|e]; [|done]. rewrite bind_Ok.
  destruct (py_mod x _) as [y|e]; [|done]. rewrite bind_Ok.
  intros [= <- _]. unfold Notebook.h. cbn [py_str].
  split; [done|]. apply Z.mod_pos_bound. lia.
Qed.

(** X14. With [sparse] set, the matrix [encode] asks [csr_matrix] for has
    one entry per tag, in the order of the tags: every row index is 0, every
    column index is an integer within the [n_dim] columns of the shape, and
    the entries are the contributions of the tags. *)
Theorem encode_sparse_coordinates self doc doc' :
  0 < TagsHasher.n_dim self → TagsHasher.sparse self = true →
  tags doc ≠ [] →
  TagsHasher.encode_doc self doc = Ok doc' →
  ∃ data idxs,
    doc' = mkTagDoc (tags doc)
             (Some (Csr data idxs (1, TagsHasher.n_dim self))) ∧
    contributions self (tags doc)
    = Ok (zip ((λ rc : Z * number, rc.2) <$> idxs) data) ∧
    length data = length (tags doc) ∧ length idxs = length (tags doc) ∧
    Forall (λ rc, rc.1 = 0 ∧
                  ∃ c, rc.2 = Int c ∧ 0 ≤ c < TagsHasher.n_dim self) idxs.
Proof.
  intros Hn Hsp Htags Hdoc.
  destruct (proj1 (encode_doc_returns_iff self doc Hn Htags))
    as (cs & Hcs & Hint); [by eexists|].
  rewrite (encode_doc_sparse self doc cs) in Hdoc by done.
  injection Hdoc as <-.
  assert (Hl : length cs = length (tags doc)).
  { apply map_each_inv in Hcs. by rewrite (Forall2_length _ _ _ Hcs). }
  eexists _, _. split_and!; [done| | | |].
  - rewrite Hcs. f_equal. rewrite <- list_fmap_compose.
    clear. induction cs as [|[c x] cs IH]; cbn; [done|]. by rewrite <- IH.
  - by rewrite length_fmap.
  - by rewrite length_fmap.
  - apply Forall_fmap.
    eapply Forall_impl; [by apply (contributions_col_range self (tags doc))|].
    intros cv (c & Hc & Hr). cbn. split; [done|]. by exists c.
Qed.

(** X15. With MD5 as the digest, an integer that [_any_hash] returns for a
    string is the value of [int] on it or lies in [[0, 2 ^ 128)]: 0, 1, or
    the 128-bit digest. *)
Theorem any_hash_digest_range self s z :
  TagsHasher.hash self = MD5.hexdigest_int →
  TagsHasher._any_hash self (VStr s) = Ok (Int z) →
  py_int (VStr s) = Ok z ∨ 0 ≤ z < 2 ^ 128.
Proof.
  intros Hhash. unfold TagsHasher._any_hash. cbn.
  destruct (str_to_int s) as [z'|]; [intros [= ->]; by left|].
  destruct (str_to_float s) as [f|]; [done|].
  destruct (negb _); [intros [= <-]; right; lia|].
  repeat (destruct (bool_decide _); [intros [= <-]; right; lia|]).
  intros [= <-]. right. rewrite Hhash.
  pose proof (hexdigest_int_bound (str_strip s)). lia.
Qed.

End more_hasher_facts.

(** ** TagsHasher: the further properties on the notebook's tags *)

Lemma encode_reads_values_through_int_witness :
  doc_embedding <$>
    TagsHasher.encode_doc th
      (mkTagDoc [("Year"%string, VStr "1987");
                 ("Length"%string, VFloat 111.9)] None)
  = doc_embedding <$>
      TagsHasher.encode_doc th
        (mkTagDoc [("Year"%string, VInt 1987);
                   ("Length"%string, VInt 111)] None).
Proof.
  apply (encode_reads_values_through_int th
           [("Year"%string, VStr "1987"); ("Length"%string, VFloat 111.9)]
           [("Year"%string, VInt 1987); ("Length"%string, VInt 111)] None).
  constructor;
    [split; [reflexivity|right; eexists; split; vm_compute; reflexivity]|].
  constructor;
    [split; [reflexivity|right; eexists; split; vm_compute; reflexivity]|].
  constructor.
Defined.

Lemma encode_raises_on_float_like_name_witness :
  (∃ e, TagsHasher.encode_doc th (mkTagDoc [("1.5"%string, VStr "x")] None)
        = Raise e) ∧
  (∃ e, TagsHasher.encode th
          [mkTagDoc film None; mkTagDoc [("1.5"%string, VStr "x")] None]
        = Raise e).
Proof.
  apply (encode_raises_on_float_like_name th
           [mkTagDoc film None; mkTagDoc [("1.5"%string, VStr "x")] None]
           (mkTagDoc [("1.5"%string, VStr "x")] None)
           "1.5" (VStr "x") 1.5%float).
  - apply elem_of_cons. right. apply elem_of_cons. by left.
  - apply elem_of_cons. by left.
  - vm_compute. reflexivity.
  - vm_compute. reflexivity.
Defined.

Lemma encode_adds_up_witness :
  ∃ tA tB,
    TagsHasher.encode_doc th
      (mkTagDoc [("Subject"%string, VStr "Comedy")] None)
    = Ok (mkTagDoc [("Subject"%string, VStr "Comedy")] (Some (Dense tA))) ∧
    TagsHasher.encode_doc th (mkTagDoc [("Year"%string, VInt 1987)] None)
    = Ok (mkTagDoc [("Year"%string, VInt 1987)] (Some (Dense tB))) ∧
    TagsHasher.encode_doc th
      (mkTagDoc ([("Subject"%string, VStr "Comedy")]
                 ++ [("Year"%string, VInt 1987)]) None)
    = Ok (mkTagDoc ([("Subject"%string, VStr "Comedy")]
                    ++ [("Year"%string, VInt 1987)])
            (Some (Dense (zip_with (λ x y, x + y)%float tA tB)))).
Proof.
  apply (encode_adds_up th [("Subject"%string, VStr "Comedy")]
           [("Year"%string, VInt 1987)] None None None
           [(Int 16, Int 25614)] [(Int 242, Int 1987)]);
    try (vm_compute; reflexivity); try done;
    repeat constructor; by eexists _, _.
Defined.

Lemma encode_ignores_zero_valued_tag_witness :
  ∃ t,
    TagsHasher.encode_doc th
      (mkTagDoc ([("Subject"%string, VStr "Comedy")] ++ []) None)
    = Ok (mkTagDoc ([("Subject"%string, VStr "Comedy")] ++ [])
            (Some (Dense t))) ∧
    TagsHasher.encode_doc th
      (mkTagDoc ([("Subject"%string, VStr "Comedy")]
                 ++ ("Length"%string, VStr "") :: []) None)
    = Ok (mkTagDoc ([("Subject"%string, VStr "Comedy")]
                    ++ ("Length"%string, VStr "") :: [])
            (Some (Dense t))).
Proof.
  apply (encode_ignores_zero_valued_tag th
           [("Subject"%string, VStr "Comedy")] [] "Length" (VStr "")
           (Z.of_N (MD5.hexdigest_int "Length")) None None
           [(Int 16, Int 25614)]);
    try (vm_compute; reflexivity); try done;
    repeat constructor; by eexists _, _.
Defined.

Lemma demo_hash_is_column_witness :
  Int 163 = Int (Notebook.h (VStr "Actor")) ∧
  0 ≤ Notebook.h (VStr "Actor") < 256.
Proof.
  apply (demo_hash_is_column th 65536 false "Actor" (VInt 1) (Int 163)
           (Int 1)).
  - reflexivity.
  - repeat split; try (vm_compute; reflexivity). discriminate.
  - vm_compute. reflexivity.
  - vm_compute. reflexivity.
Defined.

Lemma encode_sparse_coordinates_witness :
  ∃ data idxs,
    mkTagDoc film (Some (Csr [Int 25614; Int 1987]
                           [(0, Int 16); (0, Int 242)] (1, 256)))
    = mkTagDoc film (Some (Csr data idxs (1, 256))) ∧
    contributions (TagsHasher.mk 256 65536 md5 true) film
    = Ok (zip ((λ rc : Z * number, rc.2) <$> idxs) data) ∧
    length data = length film ∧ length idxs = length film ∧
    Forall (λ rc, rc.1 = 0 ∧ ∃ c, rc.2 = Int c ∧ 0 ≤ c < 256) idxs.
Proof.
  apply (encode_sparse_coordinates (TagsHasher.mk 256 65536 md5 true)
           (mkTagDoc film None)
           (mkTagDoc film (Some (Csr [Int 25614; Int 1987]
                                   [(0, Int 16); (0, Int 242)] (1, 256))))).
  - reflexivity.
  - reflexivity.
  - discriminate.
  - vm_compute. reflexivity.
Defined.

Lemma any_hash_digest_range_witness :
  py_int (VStr "Comedy") = Ok (Z.of_N (MD5.hexdigest_int "Comedy")) ∨
  0 ≤ Z.of_N (MD5.hexdigest_int "Comedy") < 2 ^ 128.
Proof.
  apply (any_hash_digest_range th "Comedy"
           (Z.of_N (MD5.hexdigest_int "Comedy"))).
  - reflexivity.
  - vm_compute. reflexivity.
Defined.

(** ** TagsHasher: surrounding whitespace *)


Lemma lstrip_head (l : list Ascii.ascii) :
  lstrip l = [] ∨ ∃ a l', lstrip l = a :: l' ∧ CPython.is_space a = false.
Proof.
  induction l as [|a l IH]; cbn; [by left|].
  destruct (CPython.is_space a) eqn:Ha; [done|]. right. by exists a, l.
Qed.

Lemma lstrip_fixed (a : Ascii.ascii) (l : list Ascii.ascii) :
  CPython.is_space a = false → lstrip (a :: l) = a :: l.
Proof. intros Ha. cbn. by rewrite Ha. Qed.

Lemma lstrip_idem (l : list Ascii.ascii) : lstrip (lstrip l) = lstrip l.
Proof.
  destruct (lstrip_head l) as [->|(a & l' & -> & Ha)]; [done|].
  by apply lstrip_fixed.
Qed.








(** ** TagsHasher: the table of a single tag *)

Section single_tag.
Context `{Builtins}.
Implicit Types (self : TagsHasher.t) (v : value) (k s : string).

Lemma contribution_plain_name self k v x :
  0 < TagsHasher.n_dim self → 0 < TagsHasher.max_val self →
  plain k → TagsHasher.hash self (str_strip k) ≠ 0%N →
  TagsHasher._any_hash self v = Ok (Int x) →
  TagsHasher.contribution self (k, v)
  = Ok (Int (Z.of_N (TagsHasher.hash self (str_strip k))
             mod TagsHasher.n_dim self),
        Int (Z.sgn x * (x mod TagsHasher.max_val self))).
Proof.
  intros Hn Hm Hk Hh Hv. unfold TagsHasher.contribution.
  rewrite (any_hash_plain _ k Hk), Hv. cbn.
  destruct (Z.eqb_spec (TagsHasher.n_dim self) 0); [lia|].
  destruct (Z.eqb_spec (TagsHasher.max_val self) 0); [lia|]. cbn.
  do 3 f_equal.
  assert (Z.sgn (Z.of_N (TagsHasher.hash self (str_strip k))) = 1) as ->.
  { apply Z.sgn_pos. lia. }
  lia.
Qed.

(** X17. Reading a table back.  A document with one tag, whose name is a
    plain string (with a digest other than 0) and whose value is hashed to
    the integer [x], gets a table that is 0 everywhere except in the column
    of the name, where it holds [sgn(x) * (x mod max_val)]: the value itself
    for an integer value in [[0, max_val)], and [-(max_val - |x|)] for a
    negative one above [-max_val]. *)
Theorem encode_single_tag self k v (x : Z) (e : option embedding) :
  0 < TagsHasher.n_dim self → 0 < TagsHasher.max_val self ≤ 2 ^ 53 →
  TagsHasher.sparse self = false →
  plain k → TagsHasher.hash self (str_strip k) ≠ 0%N →
  TagsHasher._any_hash self v = Ok (Int x) →
  TagsHasher.encode_doc self (mkTagDoc [(k, v)] e)
  = Ok (mkTagDoc [(k, v)]
          (Some (Dense
             (<[Z.to_nat (Z.of_N (TagsHasher.hash self (str_strip k))
                          mod TagsHasher.n_dim self)
                := float_of_Z (Z.sgn x * (x mod TagsHasher.max_val self))]>
                (replicate (Z.to_nat (TagsHasher.n_dim self)) 0%float))))) ∧
  (0 ≤ x < TagsHasher.max_val self →
   Z.sgn x * (x mod TagsHasher.max_val self) = x) ∧
  (- TagsHasher.max_val self < x < 0 →
   Z.sgn x * (x mod TagsHasher.max_val self)
   = - (TagsHasher.max_val self + x)).
Proof.
  intros Hn [Hm Hm53] Hsp Hk Hh Hv.
  assert (Hc := contribution_plain_name self k v x Hn Hm Hk Hh Hv).
  set (c := Z.of_N (TagsHasher.hash self (str_strip k))
            mod TagsHasher.n_dim self) in *.
  set (y := Z.sgn x * (x mod TagsHasher.max_val self)) in *.
  assert (Hcr : 0 ≤ c < TagsHasher.n_dim self)
    by (apply Z.mod_pos_bound; lia).
  assert (Hxm : 0 ≤ x mod TagsHasher.max_val self < TagsHasher.max_val self)
    by (apply Z.mod_pos_bound; lia).
  split_and!.
  - rewrite (encode_doc_dense self (mkTagDoc [(k, v)] e) [(Int c, Int y)]);
      try done.
    + do 4 f_equal. unfold add_all. cbn [fold_left fst snd to_float].
      apply list_eq. intros j.
      destruct (decide (j = Z.to_nat c)) as [->|Hj].
      * rewrite list_lookup_alter_eq, list_lookup_insert_eq
          by (rewrite length_replicate; lia).
        rewrite lookup_replicate_2 by lia. cbn. f_equal.
        change 0%float with (float_of_Z 0).
        rewrite float_add_exact; [done|lia| |].
        -- assert (Z.abs (Z.sgn x) ≤ 1) by (destruct x; cbn; lia).
           unfold y. rewrite Z.abs_mul. nia.
        -- assert (Z.abs (Z.sgn x) ≤ 1) by (destruct x; cbn; lia).
           unfold y. rewrite Z.add_0_l, Z.abs_mul. nia.
      * by rewrite list_lookup_alter_ne, list_lookup_insert_ne.
    + unfold contributions. cbn [map_each tags]. by rewrite Hc.
    + repeat constructor. by exists c.
  - intros Hx. unfold y. rewrite Z.mod_small by lia.
    destruct (decide (x = 0)) as [->|]; [done|]. rewrite Z.sgn_pos; lia.
  - intros Hx. unfold y. rewrite Z.sgn_neg by lia.
    replace (x mod TagsHasher.max_val self) with (x + TagsHasher.max_val self);
      [lia|].
    apply Z.mod_unique_pos with (q := -1); lia.
Qed.

End single_tag.

Lemma encode_single_tag_witness :
  TagsHasher.encode_doc th (mkTagDoc [("Year"%string, VInt 1987)] None)
  = Ok (mkTagDoc [("Year"%string, VInt 1987)]
          (Some (Dense (<[242%nat := 1987%float]> (replicate 256 0%float))))).
Proof.
  destruct (encode_single_tag th "Year" (VInt 1987) 1987 None)
    as [Henc _].
  - reflexivity.
  - split; [reflexivity|]. vm_compute. discriminate.
  - reflexivity.
  - repeat split; try (vm_compute; reflexivity). discriminate.
  - vm_compute. discriminate.
  - reflexivity.
  - vm_compute. vm_compute in Henc. exact Henc.
Defined.
